(** * pivo-segmentation: the dataset collection notebook

    A shallow embedding of [dataset_collect.ipynb]: the geometric region
    filter ([bbox_ratio], [filter_by_constrain], [suppress_inside_bboxes],
    [get_image_and_bboxes]), the region persister
    ([extract_and_save_bboxes], [image_pipeline]), the deduplicating
    downloader ([download_image]) and the batch generator
    ([yandex_images_batch_generator]).

    Numbers.  Box coordinates are numpy scalars.  They are modelled as exact
    rationals [Q]; the result of a numpy true division is a [npfloat], which
    adds the IEEE values a division by zero produces (numpy warns and
    returns [inf], [-inf] or [nan]; it does not raise).  Rounding of
    binary64 and signed zeros are not modelled: on integer pixel coordinates
    the sums and products of the notebook are exact and the comparisons
    against 1.5, 5 and 0.7 agree with the exact ones. *)

From Stdlib Require Import QArith Qminmax Lqa ZArith Lia.
From stdpp Require Import base list strings gmap pretty.

Local Open Scope Q_scope.

(** ** numpy scalars *)

Module Np.

Inductive npfloat : Type :=
| Fin (q : Q)
| PosInf
| NegInf
| NaN.

Definition Qltb (x y : Q) : bool := negb (Qle_bool y x).

(** [a / b] on numpy scalars. *)
Definition np_div (a b : Q) : npfloat :=
  if Qeq_bool b 0 then
    if Qeq_bool a 0 then NaN
    else if Qltb 0 a then PosInf else NegInf
  else Fin (a / b).

(** [s < c], [s > c] and [s >= c] for a scalar [s] and a finite Python
    number [c]; every comparison with [nan] is [False]. *)
Definition np_lt (s : npfloat) (c : Q) : bool :=
  match s with
  | Fin q => Qltb q c
  | NegInf => true
  | PosInf | NaN => false
  end.

Definition np_gt (s : npfloat) (c : Q) : bool :=
  match s with
  | Fin q => Qltb c q
  | PosInf => true
  | NegInf | NaN => false
  end.

Definition np_ge (s : npfloat) (c : Q) : bool :=
  match s with
  | Fin q => Qle_bool c q
  | PosInf => true
  | NegInf | NaN => false
  end.

(** [a[mask]] for a boolean mask of the length of [a]. *)
Fixpoint np_select {A : Type} (a : list A) (mask : list bool) : list A :=
  match a, mask with
  | x :: a', b :: mask' =>
      if b then x :: np_select a' mask' else np_select a' mask'
  | _, _ => []
  end.

End Np.

Export Np.

(** ** The geometric filter *)

Module Geometry.

(** A box [[x, y, w, h]]. *)
Record bbox : Type := Bbox { bx : Q; by_ : Q; bw : Q; bh : Q }.

Definition bbox_ratio (b : bbox) : npfloat := np_div (bh b) (bw b).

Definition default_constrain : Q * Q := (3 # 2, 5).

Definition filter_by_constrain (bboxes : list bbox) (constrain : Q * Q)
    (metric : bbox -> npfloat) : list bbox :=
  let scalars := map metric bboxes in
  let mask1 := map (fun s => np_lt s (snd constrain)) scalars in
  let mask2 := map (fun s => np_gt s (fst constrain)) scalars in
  np_select bboxes (zip_with andb mask1 mask2).

Definition bbox_area (b : bbox) : Q := bw b * bh b.

Definition intersection_area (b1 b2 : bbox) : Q :=
  let x1 := Qmax (bx b1) (bx b2) in
  let y1 := Qmax (by_ b1) (by_ b2) in
  let x2 := Qmin (bx b1 + bw b1) (bx b2 + bw b2) in
  let y2 := Qmin (by_ b1 + bh b1) (by_ b2 + bh b2) in
  if Qle_bool x2 x1 || Qle_bool y2 y1 then 0
  else (x2 - x1) * (y2 - y1).

Definition default_threshold : Q := 7 # 10.

(** The body of the two nested loops of [suppress_inside_bboxes], for one
    pair [(i, j)], on the current [keep] array.  Both indices range over
    [range(len(bboxes))], so the lookups succeed. *)
Definition pair_step (bboxes : list bbox) (threshold : Q) (i j : nat)
    (keep : list bool) : list bool :=
  match bboxes !! i, bboxes !! j, keep !! i, keep !! j with
  | Some b_i, Some b_j, Some keep_i, Some keep_j =>
      if Nat.eqb i j || negb keep_i || negb keep_j then keep
      else
        let area_i := bbox_area b_i in
        let area_j := bbox_area b_j in
        let inter := intersection_area b_i b_j in
        if Qltb area_i area_j then
          if np_ge (np_div inter area_i) threshold
          then <[i := false]> keep else keep
        else if Qltb area_j area_i then
          if np_ge (np_div inter area_j) threshold
          then <[j := false]> keep else keep
        else keep
  | _, _, _, _ => keep
  end.

Definition inner_loop (bboxes : list bbox) (threshold : Q) (i : nat)
    (js : list nat) (keep : list bool) : list bool :=
  fold_left (fun keep j => pair_step bboxes threshold i j keep) js keep.

Definition outer_loop (bboxes : list bbox) (threshold : Q)
    (is_ : list nat) (keep : list bool) : list bool :=
  fold_left
    (fun keep i =>
       inner_loop bboxes threshold i (seq 0 (length bboxes)) keep)
    is_ keep.

(** The [keep] array when both loops have run. *)
Definition final_keep (bboxes : list bbox) (threshold : Q) : list bool :=
  outer_loop bboxes threshold (seq 0 (length bboxes))
    (replicate (length bboxes) true).

Definition suppress_inside_bboxes (bboxes : list bbox) (threshold : Q)
    : list bbox :=
  np_select bboxes (final_keep bboxes threshold).

(** The two stages in the order [get_image_and_bboxes] applies them, with
    the default bounds and threshold. *)
Definition filter_bboxes (raw : list bbox) : list bbox :=
  suppress_inside_bboxes
    (filter_by_constrain raw default_constrain bbox_ratio)
    default_threshold.

End Geometry.

Export Geometry.

(** ** The outside world

    What the notebook reaches through libraries is a field of [env]; what
    it changes on disk is the [world] threaded through every operation. *)

Module World.

#[global] Instance byte_eq_dec : EqDecision Byte.byte.
Proof.
  intros x y. destruct (Byte.eqb x y) eqn:Hxy.
  - left. by apply Byte.byte_dec_bl.
  - right. intros Heq. apply Byte.byte_dec_lb in Heq. congruence.
Defined.

(** The array [np.array(Image.open(path).convert("RGB"))]. *)
Definition image : Type := list (list (Z * Z * Z)).

(** One row [[x, y, w, h, file_name]] of the sidecar CSV. *)
Definition csv_row : Type := (Z * Z * Z * Z * string)%type.

Inductive file_content : Type :=
| Bytes (image_bytes : list Byte.byte)
| Crop (parent : image) (y0 y1 x0 x1 : Z)
| Csv (header : list string) (rows : list csv_row).

#[global] Instance file_content_eq_dec : EqDecision file_content.
Proof. solve_decision. Defined.

(** [requests.get(url, timeout=10)]: it raises, or returns a response. *)
Inductive http_result : Type :=
| RequestRaises
| Response (status_code : Z) (content : list Byte.byte).

Record env : Type := Env {
  md5_hexdigest : list Byte.byte -> string;
  requests_get : string -> http_result;
  uuid4_hex : nat -> string;
  os_path_join : string -> string -> string;
  path_base_name : string -> string;
  can_write : string -> bool;
  image_open : string -> option image
}.

(** [can_write p] tells whether opening [p] for writing and writing to it
    succeed; a write that fails is taken to leave no file.  For the
    directories of the persist step it tells whether [os.makedirs]
    succeeds.  [image_open] is [None] when [Image.open] or the conversion
    raises. *)

Record world : Type := World {
  dirs : list string;
  files : list (string * file_content);
  uuid_drawn : nat
}.

Definition makedirs (d : string) (w : world) : world :=
  World (d :: dirs w) (files w) (uuid_drawn w).

Definition write_file (p : string) (c : file_content) (w : world) : world :=
  World (dirs w) (files w ++ [(p, c)]) (uuid_drawn w).

Definition draw_uuid (w : world) : world :=
  World (dirs w) (files w) (S (uuid_drawn w)).

End World.

Export World.

(** ** The deduplicating downloader *)

Module Fetch.

Section WithEnv.

Variable E : env.

Definition compute_md5 (image_bytes : list Byte.byte) : string :=
  md5_hexdigest E image_bytes.

(** [download_image]: the result, the [dedup_set] afterwards (the set is
    the caller's object, mutated in place) and the world afterwards.  Every
    exception of the [try] block ends in the final [return None]. *)
Definition download_image (img_url output_dir : string)
    (dedup_set : gset string) (w : world)
    : option string * gset string * world :=
  match requests_get E img_url with
  | RequestRaises => (None, dedup_set, w)
  | Response status_code image_bytes =>
      if (status_code =? 200)%Z then
        let hash_val := compute_md5 image_bytes in
        if decide (hash_val ∈ dedup_set) then (None, dedup_set, w)
        else
          let dedup_set := {[hash_val]} ∪ dedup_set in
          let unique_name :=
            uuid4_hex E (uuid_drawn w) +:+ "_" +:+ hash_val +:+ ".png" in
          let w := draw_uuid w in
          let file_path := os_path_join E output_dir unique_name in
          if can_write E file_path
          then (Some file_path, dedup_set,
                write_file file_path (Bytes image_bytes) w)
          else (None, dedup_set, w)
      else (None, dedup_set, w)
  end.

(** A session: the URLs fetched one after the other with one set. *)
Fixpoint download_all (urls : list string) (output_dir : string)
    (dedup_set : gset string) (w : world)
    : list (option string) * gset string * world :=
  match urls with
  | [] => ([], dedup_set, w)
  | u :: urls' =>
      let '(r, dedup_set, w) := download_image u output_dir dedup_set w in
      let '(rs, dedup_set, w) := download_all urls' output_dir dedup_set w in
      (r :: rs, dedup_set, w)
  end.

End WithEnv.

(** The files of [w] that hold exactly the bytes [c]. *)
Definition files_with (c : list Byte.byte) (w : world)
    : list (string * file_content) :=
  filter (fun f => f.2 = Bytes c) (files w).

End Fetch.

Export Fetch.

(** ** The batch generator *)

Module Harvest.

(** An [img] element of the page: [get_attribute("src")] returns a string
    or [None], or raises (a stale element). *)
Inductive element : Type :=
| Element (src : option string)
| StaleElement.

(** What [driver.find_elements] finds: the elements, or a driver error. *)
Inductive dom : Type :=
| Dom (imgs : list element)
| DriverError.

(** The browser session: the page as it is now, and what each further
    scroll to the bottom loads; when nothing is left a scroll changes
    nothing. *)
Record browser : Type := Browser { page : dom; scrolls : list dom }.

Definition find_elements (br : browser) : option (list element) :=
  match page br with
  | Dom imgs => Some imgs
  | DriverError => None
  end.

Definition scroll_to_bottom (br : browser) : browser :=
  match scrolls br with
  | [] => br
  | d :: rest => Browser d rest
  end.

(** Where the generator stands between two steps. *)
Inductive pc : Type :=
| NotStarted
| LoopHead
| YieldedInLoop
| YieldedLast
| Finished.

Record gen : Type := Gen {
  at_pc : pc;
  driver : option browser;
  driver_quit : bool;
  dedup_set : gset string;
  images : list element;
  idx : nat;
  batch : list string
}.

Inductive outcome : Type :=
| Continue
| Yield (b : list string)
| StopIteration
| Raise.

Section WithEnv.

Variable E : env.
(** The page [driver.get(url)] shows for a prompt. *)
Variable chrome : string -> browser.
Variables (prompt output_dir : string) (batch_size : nat).

(** Calling the generator function runs none of its body. *)
Definition yandex_images_batch_generator : gen :=
  Gen NotStarted None false ∅ [] 0 [].

(** [not img_url or img_url.startswith("data:")] *)
Definition skip_url (img_url : option string) : bool :=
  match img_url with
  | None => true
  | Some u => bool_decide (u = "") || String.prefix "data:" u
  end.

(** The part after the loop: the last batch, then [driver.quit()]. *)
Definition after_loop (g : gen) (w : world) : outcome * gen * world :=
  match batch g with
  | [] =>
      (StopIteration,
       Gen Finished (driver g) true (dedup_set g) (images g) (idx g) [], w)
  | _ :: _ =>
      (Yield (batch g),
       Gen YieldedLast (driver g) (driver_quit g) (dedup_set g) (images g)
         (idx g) (batch g), w)
  end.

(** The [try] block of one iteration, on the element list [imgs]. *)
Definition loop_body (g : gen) (br : browser) (imgs : list element)
    (w : world) : outcome * gen * world :=
  let next b := Gen LoopHead (Some br) (driver_quit g) (dedup_set g) imgs
                  (S (idx g)) b in
  match imgs !! idx g with
  | None | Some StaleElement => (Continue, next (batch g), w)
  | Some (Element img_url) =>
      if skip_url img_url then (Continue, next (batch g), w)
      else
        let '(file_path, dedup, w) :=
          download_image E (default "" img_url) output_dir (dedup_set g) w in
        let b := match file_path with
                 | Some p => batch g ++ [p]
                 | None => batch g
                 end in
        if Nat.eqb (length b) batch_size then
          (Yield b,
           Gen YieldedInLoop (Some br) (driver_quit g) dedup imgs (idx g) b,
           w)
        else
          (Continue,
           Gen LoopHead (Some br) (driver_quit g) dedup imgs (S (idx g)) b,
           w)
  end.

(** One step: up to the next [yield], the end of one loop iteration, or the
    end of the generator.  The start is taken up to the first
    [find_elements]: [os.makedirs], [webdriver.Chrome] and [driver.get]
    are assumed to return, so a run whose start-up raises is no run of
    this model. *)
Definition step (g : gen) (w : world) : outcome * gen * world :=
  match at_pc g with
  | NotStarted =>
      let w := makedirs output_dir w in
      let br := chrome ("https://yandex.ru/images/search?text=" +:+ prompt) in
      match find_elements br with
      | None => (Raise, Gen Finished (Some br) false ∅ [] 0 [], w)
      | Some imgs => (Continue, Gen LoopHead (Some br) false ∅ imgs 0 [], w)
      end
  | LoopHead =>
      match driver g with
      | None => (Raise, g, w)
      | Some br =>
          if Nat.leb (length (images g)) (idx g) then
            let br := scroll_to_bottom br in
            match find_elements br with
            | None =>
                (Raise,
                 Gen Finished (Some br) (driver_quit g) (dedup_set g)
                   (images g) (idx g) (batch g), w)
            | Some imgs =>
                if Nat.leb (length imgs) (idx g) then
                  after_loop
                    (Gen LoopHead (Some br) (driver_quit g) (dedup_set g)
                       imgs (idx g) (batch g)) w
                else loop_body g br imgs w
            end
          else loop_body g br (images g) w
      end
  | YieldedInLoop =>
      (Continue,
       Gen LoopHead (driver g) (driver_quit g) (dedup_set g) (images g)
         (S (idx g)) [], w)
  | YieldedLast =>
      (StopIteration,
       Gen Finished (driver g) true (dedup_set g) (images g) (idx g)
         (batch g), w)
  | Finished => (StopIteration, g, w)
  end.

(** [next(generator)]: steps until the generator yields or ends. *)
Fixpoint gen_next (fuel : nat) (g : gen) (w : world)
    : option (outcome * gen * world) :=
  match fuel with
  | O => None
  | S fuel =>
      match step g w with
      | (Continue, g, w) => gen_next fuel g w
      | r => Some r
      end
  end.

(** [generator.close()], also run when a suspended generator is collected:
    [GeneratorExit] is raised at the [yield]; it is no [Exception], so the
    [except] clause of the loop lets it through and the generator ends
    there. *)
Definition gen_close (g : gen) : gen :=
  match at_pc g with
  | NotStarted | YieldedInLoop | YieldedLast =>
      Gen Finished (driver g) (driver_quit g) (dedup_set g) (images g)
        (idx g) (batch g)
  | LoopHead | Finished => g
  end.

(** [list(generator)]: every batch up to the end of the generator, and
    whether it ended by [StopIteration] ([true]) or by an exception. *)
Fixpoint gen_all (fuel : nat) (g : gen) (w : world)
    : option (list (list string) * bool * gen * world) :=
  match fuel with
  | O => None
  | S fuel =>
      match step g w with
      | (Continue, g, w) => gen_all fuel g w
      | (Yield b, g, w) =>
          match gen_all fuel g w with
          | Some (bs, ok, g, w) => Some (b :: bs, ok, g, w)
          | None => None
          end
      | (StopIteration, g, w) => Some ([], true, g, w)
      | (Raise, g, w) => Some ([], false, g, w)
      end
  end.

(** What [list(generator)] does with the result of one step. *)
Definition after_step (fuel : nat) (r : outcome * gen * world)
    : option (list (list string) * bool * gen * world) :=
  match r with
  | (Continue, g, w) => gen_all fuel g w
  | (Yield b, g, w) =>
      match gen_all fuel g w with
      | Some (bs, ok, g, w) => Some (b :: bs, ok, g, w)
      | None => None
      end
  | (StopIteration, g, w) => Some ([], true, g, w)
  | (Raise, g, w) => Some ([], false, g, w)
  end.

End WithEnv.

(** The session was acquired and [driver.quit()] has not run. *)
Definition driver_leaked (g : gen) : Prop :=
  is_Some (driver g) ∧ driver_quit g = false.

End Harvest.

Export Harvest.

(** ** Region proposal and persistence *)

Module Persist.

(** The result of a call that may raise. *)
Inductive result (A : Type) : Type :=
| Returned (a : A)
| Raised.
Arguments Returned {A} a.
Arguments Raised {A}.

(** [astype(int)] on one coordinate: truncation towards zero.  The integer
    of numpy has a fixed width, 32 or 64 bits by platform; the model is
    exact for coordinates within it, as those of a box in an image are. *)
Definition astype_int (q : Q) : Z := Z.quot (Qnum q) (Z.pos (Qden q)).

Section WithEnv.

Variable E : env.

(** [mask_generator.generate(image)], reduced to the ["bbox"] entries it is
    read for; [None] when the call raises. *)
Definition oracle : Type := image -> option (list bbox).

(** [get_image_and_bboxes]: any exception gives [(None, None)]. *)
Definition get_image_and_bboxes (image_path : string)
    (mask_generator : oracle) : option image * option (list bbox) :=
  match image_open E image_path with
  | None => (None, None)
  | Some image =>
      match mask_generator image with
      | None => (None, None)
      | Some raw_mask =>
          let bbox := raw_mask in
          let bbox := filter_by_constrain bbox default_constrain bbox_ratio in
          let bbox := suppress_inside_bboxes bbox default_threshold in
          (Some image, Some bbox)
      end
  end.

(** The shape [(H, W, 3)] of the array. *)
Definition image_height (image : image) : Z := Z.of_nat (length image).

Definition image_width (image : image) : Z :=
  match image with
  | [] => 0
  | row :: _ => Z.of_nat (length row)
  end.

(** A bound [i] of a slice of [n] items as numpy reads it: a negative
    bound counts from the end, and every bound is cut to [0 .. n]. *)
Definition slice_index (n i : Z) : Z :=
  if (i <? 0)%Z then Z.max 0 (i + n) else Z.min i n.

(** The number of items [start:stop] selects from [n] items. *)
Definition slice_length (n start stop : Z) : Z :=
  Z.max 0 (slice_index n stop - slice_index n start).

(** [image[y0:y1, x0:x1]] has no pixel. *)
Definition crop_is_empty (image : image) (y0 y1 x0 x1 : Z) : bool :=
  (slice_length (image_height image) y0 y1 =? 0)%Z
  || (slice_length (image_width image) x0 x1 =? 0)%Z.

(** The loop over [enumerate(bboxes.astype(int))], from index [idx] on.
    [cv2.imwrite] raises [cv2.error] on a crop without pixels; when it
    cannot write the file it returns [False] and does not raise.  A crop
    written is kept as the slice bounds it was cut with. *)
Fixpoint save_crops (image : image) (base_name bbox_dir : string)
    (idx : nat) (bboxes : list bbox) (w : world)
    : result (list csv_row) * world :=
  match bboxes with
  | [] => (Returned [], w)
  | b :: rest =>
      let x := astype_int (bx b) in
      let y := astype_int (by_ b) in
      let w_ := astype_int (bw b) in
      let h := astype_int (bh b) in
      let file_name := base_name +:+ "_" +:+ pretty idx +:+ ".png" in
      let file_path := os_path_join E bbox_dir file_name in
      if crop_is_empty image y (y + h) x (x + w_) then (Raised, w)
      else
        let w :=
          if can_write E file_path
          then write_file file_path (Crop image y (y + h) x (x + w_)) w
          else w in
        match save_crops image base_name bbox_dir (S idx) rest w with
        | (Returned rows, w) => (Returned ((x, y, w_, h, file_name) :: rows), w)
        | (Raised, w) => (Raised, w)
        end
  end.

Definition csv_header : list string := ["X"; "Y"; "W"; "H"; "FileName"].

(** [extract_and_save_bboxes]: [os.makedirs] raises when the directory
    cannot be made ([can_write] answers for directories too), the loop
    raises on a crop without pixels, and [open] raises when the CSV cannot
    be written; nothing is caught here. *)
Definition extract_and_save_bboxes (image : image) (bboxes : list bbox)
    (bbox_dir csv_dir image_path : string) (w : world)
    : result unit * world :=
  if negb (can_write E bbox_dir) then (Raised, w)
  else
    let w := makedirs bbox_dir w in
    if negb (can_write E csv_dir) then (Raised, w)
    else
      let w := makedirs csv_dir w in
      let base_name := path_base_name E image_path in
      match save_crops image base_name bbox_dir 0 bboxes w with
      | (Raised, w) => (Raised, w)
      | (Returned csv_rows, w) =>
          let csv_file_name := base_name +:+ ".csv" in
          let csv_file_path := os_path_join E csv_dir csv_file_name in
          if can_write E csv_file_path
          then (Returned (),
                write_file csv_file_path (Csv csv_header csv_rows) w)
          else (Raised, w)
      end.

Definition image_pipeline (image_path : string) (mask_generator : oracle)
    (bboxes_dir csv_dir : string) (w : world) : result bool * world :=
  match get_image_and_bboxes image_path mask_generator with
  | (None, _) => (Returned false, w)
  | (Some image, Some bbox) =>
      if Nat.eqb (length bbox) 0 then (Returned false, w)
      else
        match extract_and_save_bboxes image bbox bboxes_dir csv_dir
                image_path w with
        | (Returned _, w) => (Returned true, w)
        | (Raised, w) => (Raised, w)
        end
  | (Some _, None) => (Raised, w)
  end.

End WithEnv.

End Persist.

Export Persist.

(** ** Batches as the specification counts them *)

Module BatchSpec.

(** [items] cut into runs of [k], the last one shorter when [k] does not
    divide the length; [fuel] bounds the number of runs. *)
Fixpoint chunks_upto (fuel k : nat) (items : list string)
    : list (list string) :=
  match fuel, items with
  | O, _ | _, [] => []
  | S fuel, _ :: _ => take k items :: chunks_upto fuel k (drop k items)
  end.

Definition chunks (k : nat) (items : list string) : list (list string) :=
  chunks_upto (length items) k items.

(** [ceil(n / k)] *)
Definition ceil_div (n k : nat) : nat := (n + k - 1) / k.

(** The bytes a URL serves and the fingerprint they are known under. *)
Definition body_of (E : env) (u : string) : list Byte.byte :=
  match requests_get E u with
  | Response _ c => c
  | RequestRaises => []
  end.

Definition fingerprint_of (E : env) (u : string) : string :=
  md5_hexdigest E (body_of E u).

(** The paths under which the bytes of [urls] are saved, one after the
    other, when [n] unique names were drawn before. *)
Fixpoint saved_paths (E : env) (output_dir : string) (n : nat)
    (urls : list string) : list string :=
  match urls with
  | [] => []
  | u :: urls' =>
      os_path_join E output_dir
        (uuid4_hex E n +:+ "_" +:+ fingerprint_of E u +:+ ".png")
      :: saved_paths E output_dir (S n) urls'
  end.

(** The [img] elements of the candidates [urls]. *)
Definition candidates (urls : list string) : list element :=
  map (fun u => Element (Some u)) urls.

(** The page shows a prefix [shown] of the elements [all] and every scroll
    loads more of them, until all are shown and a scroll changes nothing. *)
Inductive reveals (all : list element) : list element -> list dom -> Prop :=
| reveals_all : reveals all all []
| reveals_more (shown next : list element) (rest : list dom) :
    shown `prefix_of` next ->
    (length shown < length next)%nat ->
    reveals all next rest ->
    reveals all shown (Dom next :: rest).

(** A source of valid, unique, fetch-succeeding candidates [urls], on a
    disk that takes every write. *)
Record good_source (E : env) (chrome : string -> browser) (prompt : string)
    (urls : list string) : Prop := GoodSource {
  gs_page :
    exists (shown : list element) (more : list dom),
      chrome ("https://yandex.ru/images/search?text=" +:+ prompt)
      = Browser (Dom shown) more
      /\ reveals (candidates urls) shown more;
  gs_valid : Forall (fun u => skip_url (Some u) = false) urls;
  gs_fetch :
    Forall (fun u => exists c, requests_get E u = Response 200 c) urls;
  gs_unique : NoDup (map (fingerprint_of E) urls);
  gs_disk : forall p : string, can_write E p = true
}.

End BatchSpec.

Export BatchSpec.

(** ** What a fetch failure is, and a small world to run the notebook in *)

Module FetchSpec.

(** The file [download_image] writes for unseen bytes [c]. *)
Definition target_path (E : env) (output_dir : string) (c : list Byte.byte)
    (w : world) : string :=
  os_path_join E output_dir
    (uuid4_hex E (uuid_drawn w) +:+ "_" +:+ md5_hexdigest E c +:+ ".png").

(** The request raises or answers with a status other than 200. *)
Definition request_fails (E : env) (img_url : string) : Prop :=
  match requests_get E img_url with
  | RequestRaises => True
  | Response status_code _ => status_code <> 200%Z
  end.

(** The request succeeds with unseen bytes and the file cannot be written. *)
Definition write_fails (E : env) (img_url output_dir : string)
    (dedup_set : gset string) (w : world) : Prop :=
  match requests_get E img_url with
  | RequestRaises => False
  | Response status_code c =>
      status_code = 200%Z /\ (md5_hexdigest E c ∉ dedup_set)
      /\ can_write E (target_path E output_dir c w) = false
  end.

(** A fault at any point of the operation. *)
Definition fetch_fails (E : env) (img_url output_dir : string)
    (dedup_set : gset string) (w : world) : Prop :=
  request_fails E img_url \/ write_fails E img_url output_dir dedup_set w.

End FetchSpec.

Export FetchSpec.

Module Sample.

Definition payload (u : string) : list Byte.byte := String.list_byte_of_string u.

(** Every URL but ["http://down"] answers 200 with its own name as bytes;
    ["http://a"] and ["http://mirror/a"] serve the same bytes. *)
Definition sample_get (u : string) : http_result :=
  if bool_decide (u = "http://down") then RequestRaises
  else if bool_decide (u = "http://gone") then Response 404 []
  else if bool_decide (u = "http://mirror/a") then
    Response 200 (payload "http://a")
  else Response 200 (payload u).

Definition sample_env (disk_ok : bool) : env :=
  {| md5_hexdigest := String.string_of_list_byte;
     requests_get := sample_get;
     uuid4_hex := fun n => "uuid" +:+ pretty n;
     os_path_join := fun d f => d +:+ "/" +:+ f;
     path_base_name := fun p => p;
     can_write := fun _ => disk_ok;
     image_open := fun _ => Some [[(0, 0, 0)%Z]] |}.

Definition empty_world : world := World [] [] 0.

Definition sample_oracle : oracle :=
  fun _ => Some [Bbox 0 0 10 10; Bbox 0 0 10 20; Bbox 2 2 5 10].

Definition sample_chrome (imgs : list element) : string -> browser :=
  fun _ => Browser (Dom imgs) [].

End Sample.

Export Sample.

(** ** Accepted regions of an image *)

Module PersistSpec.

(** The regions [get_image_and_bboxes] accepts for an image; none when the
    image or the oracle fails. *)
Definition accepted_regions (E : env) (image_path : string)
    (mask_generator : oracle) : list bbox :=
  default [] (get_image_and_bboxes E image_path mask_generator).2.

Definition is_crop (f : string * file_content) : bool :=
  match f.2 with Crop _ _ _ _ _ => true | _ => false end.

Definition is_csv (f : string * file_content) : bool :=
  match f.2 with Csv _ _ => true | _ => false end.

End PersistSpec.

Export PersistSpec.

(** ** The geometric filter as the specification words it *)

Module GeometrySpec.

(** [h / w] is a number strictly between the bounds. *)
Definition ratio_strictly_between (low high : Q) (b : bbox) : Prop :=
  ~ bw b == 0 /\ low < bh b / bw b /\ bh b / bw b < high.

(** The two boxes share a stretch of positive length on the x axis, and on
    the y axis. *)
Definition overlap_x (b1 b2 : bbox) : Prop :=
  0 < bw b1 /\ 0 < bw b2
  /\ bx b1 < bx b2 + bw b2 /\ bx b2 < bx b1 + bw b1.

Definition overlap_y (b1 b2 : bbox) : Prop :=
  0 < bh b1 /\ 0 < bh b2
  /\ by_ b1 < by_ b2 + bh b2 /\ by_ b2 < by_ b1 + bh b1.

(** Both regions of the pair are still kept. *)
Definition both_kept (keep : list bool) (i j : nat) : Prop :=
  i <> j /\ keep !! i = Some true /\ keep !! j = Some true.

(** Every index kept in [keep'] was kept in [keep]. *)
Definition kept_within (keep' keep : list bool) : Prop :=
  forall k : nat, keep' !! k = Some true -> keep !! k = Some true.

End GeometrySpec.

Export GeometrySpec.

(** ** When one region can suppress another *)

Module SuppressionSpec.

(** [small] has less area than [large] and the part of it that [large]
    covers reaches the threshold, with the intersection taken in either
    order of the two boxes. *)
Definition suppressible (threshold : Q) (small large : bbox) : Prop :=
  bbox_area small < bbox_area large
  /\ (np_ge (np_div (intersection_area small large) (bbox_area small))
        threshold = true
      \/ np_ge (np_div (intersection_area large small) (bbox_area small))
           threshold = true).

(** [inner] lies within [outer] on both axes. *)
Definition inside (inner outer : bbox) : Prop :=
  bx outer <= bx inner /\ bx inner + bw inner <= bx outer + bw outer
  /\ by_ outer <= by_ inner /\ by_ inner + bh inner <= by_ outer + bh outer.

Definition nonneg_size (b : bbox) : Prop := 0 <= bw b /\ 0 <= bh b.

(** Region [k] of the list has a strictly larger region of the list that
    can suppress it. *)
Definition has_suppressor (bboxes : list bbox) (threshold : Q) (k : nat)
    : Prop :=
  exists (m : nat) (b_k b_m : bbox),
    m <> k /\ bboxes !! k = Some b_k /\ bboxes !! m = Some b_m
    /\ suppressible threshold b_k b_m.

End SuppressionSpec.

Export SuppressionSpec.

(** ** Files of a session, and measures of a generator *)

Module SessionSpec.

(** The fingerprint of the bytes a downloaded file holds. *)
Definition file_fingerprint (E : env) (f : string * file_content) : string :=
  match f.2 with
  | Bytes c => md5_hexdigest E c
  | Crop _ _ _ _ _ | Csv _ _ => ""
  end.


(** The paths collected and not yet yielded. *)
Definition pending (g : gen) : list string :=
  match at_pc g with
  | LoopHead => batch g
  | NotStarted | YieldedInLoop | YieldedLast | Finished => []
  end.

(** What one step of a started generator may do: it writes the files
    [new1] (of fresh, distinct fingerprints, which join the set), and its
    outcome accounts for every path collected so far. *)
Definition step_post (E : env) (k : nat) (g : gen) (w : world)
    (r : outcome * gen * world) : Prop :=
  let '(o, g1, w1) := r in
  exists new1 : list (string * file_content),
    files w1 = files w ++ new1
    /\ NoDup (file_fingerprint E <$> new1)
    /\ (forall f, f ∈ new1 ->
                  (file_fingerprint E f ∉ dedup_set g)
                  /\ file_fingerprint E f ∈ dedup_set g1)
    /\ dedup_set g ⊆ dedup_set g1
    /\ match o with
       | Continue =>
           at_pc g1 = LoopHead /\ pending g1 = pending g ++ new1.*1
           /\ ((0 < k)%nat -> (length (pending g) < k)%nat ->
               (length (pending g1) < k)%nat)
       | Yield b =>
           b = pending g ++ new1.*1 /\ pending g1 = []
           /\ ((at_pc g1 = YieldedInLoop /\ length b = k)
               \/ (at_pc g1 = YieldedLast /\ new1 = [] /\ b <> []))
       | StopIteration => at_pc g1 = Finished /\ pending g = [] /\ new1 = []
       | Raise => new1 = []
       end.

(** The generator was started and has not ended. *)
Definition live (g : gen) : Prop :=
  at_pc g = LoopHead \/ at_pc g = YieldedInLoop \/ at_pc g = YieldedLast.

(** A generator as a caller holds it between two calls of [next]: not
    started, or started with the session held and not quit. *)
Definition held (g : gen) : Prop :=
  g = yandex_images_batch_generator
  \/ (is_Some (driver g) /\ driver_quit g = false /\ live g).

Definition dom_length (d : dom) : nat :=
  match d with
  | Dom imgs => length imgs
  | DriverError => 0
  end.

(** The most elements the browser ever shows, now or after any scroll. *)
Definition max_shown (br : browser) : nat :=
  foldr (fun d n => Nat.max (dom_length d) n) (dom_length (page br))
    (scrolls br).

Definition search_url (prompt : string) : string :=
  "https://yandex.ru/images/search?text=" +:+ prompt.

End SessionSpec.

Export SessionSpec.

(** ** The shape of what the persist step writes *)

Module PersistShape.

(** The file name of the crop of region [idx] of the image [base_name]. *)
Definition crop_name (base_name : string) (idx : nat) : string :=
  base_name +:+ "_" +:+ pretty idx +:+ ".png".

(** The CSV row of region [idx]. *)
Definition row_of (base_name : string) (idx : nat) (b : bbox) : csv_row :=
  (astype_int (bx b), astype_int (by_ b), astype_int (bw b),
   astype_int (bh b), crop_name base_name idx).


Definition csv_path (E : env) (csv_dir image_path : string) : string :=
  os_path_join E csv_dir (path_base_name E image_path +:+ ".csv").

Definition row_file_name (r : csv_row) : string := r.2.


End PersistShape.

Export PersistShape.

(** ** The loops of the notebook over images *)

Module Notebook.

Section WithEnv.

Variable E : env.
Variable mask_generator : oracle.
Variables (bboxes_dir csv_dir : string).


(** [os.remove(path)] under [try: ... except: pass]: the file is gone
    afterwards, and a missing file is no error. *)
Definition remove_file (path : string) (w : world) : world :=
  World (dirs w) (List.filter (fun f => negb (String.eqb f.1 path)) (files w))
    (uuid_drawn w).

(** The loop [for path in batch] of the collection cell: an image without
    regions is removed from the disk; an exception of [image_pipeline]
    is not caught there. *)
Fixpoint process_batch (batch : list string) (counter : nat) (w : world)
    : result nat * world :=
  match batch with
  | [] => (Returned counter, w)
  | path :: rest =>
      match image_pipeline E path mask_generator bboxes_dir csv_dir w with
      | (Returned true, w) => process_batch rest (S counter) w
      | (Returned false, w) => process_batch rest counter (remove_file path w)
      | (Raised, w) => (Raised, w)
      end
  end.

(** How the [while True] loop over one generator ends. *)
Inductive stop_reason : Type :=
| TargetReached
| Exhausted
| Crashed.

Variable chrome : string -> browser.
Variables (prompt downloaded_dir : string) (batch_size : nat).

(** The [while True] loop of the collection cell for one prompt:
    [rounds] bounds the calls of [next], [fuel] the steps of each.  Only
    [StopIteration] is caught; the result is the reason of the end, the
    generator as it is left, the world and [already_downloaded]. *)
Fixpoint collect (rounds fuel : nat) (num_images : nat) (g : gen)
    (w : world) (already_downloaded : nat)
    : option (stop_reason * gen * world * nat) :=
  match rounds with
  | O => None
  | S rounds =>
      match gen_next E chrome prompt downloaded_dir batch_size fuel g w with
      | None | Some (Continue, _, _) => None
      | Some (Yield batch, g, w) =>
          match process_batch batch 0 w with
          | (Raised, w) => Some (Crashed, g, w, already_downloaded)
          | (Returned _, w) =>
              let already_downloaded :=
                (already_downloaded + length batch)%nat in
              if Nat.leb num_images already_downloaded
              then Some (TargetReached, g, w, already_downloaded)
              else collect rounds fuel num_images g w already_downloaded
          end
      | Some (StopIteration, g, w) =>
          Some (Exhausted, g, w, already_downloaded)
      | Some (Raise, g, w) => Some (Crashed, g, w, already_downloaded)
      end
  end.

End WithEnv.

(** The word list of the last cells cut into pieces of a quarter of its
    length: [range(0, len(a), len(a) // 4)] and the slices
    [a[i:i + len(a) // 4]]; [range] raises on a step of 0. *)
Fixpoint py_range (fuel start stop step : nat) : list nat :=
  match fuel with
  | O => []
  | S fuel =>
      if Nat.ltb start stop
      then start :: py_range fuel (start + step) stop step
      else []
  end.

Definition quarters (a : list string) : option (list (list string)) :=
  let q := (length a / 4)%nat in
  if Nat.eqb q 0 then None
  else Some (map (fun i => take q (drop i a))
               (py_range (length a) 0 (length a) q)).

End Notebook.

Export Notebook.

(** ** Overlap measured on the boxes themselves *)

Module OverlapSpec.

(** The length of the common part of the spans [[a1, a1 + l1]] and
    [[a2, a2 + l2]] of a line; 0 when they have none. *)
Definition span_overlap (a1 l1 a2 l2 : Q) : Q :=
  Qmax 0 (Qmin (a1 + l1) (a2 + l2) - Qmax a1 a2).

(** The area two boxes have in common. *)
Definition overlap_area (b1 b2 : bbox) : Q :=
  span_overlap (bx b1) (bw b1) (bx b2) (bw b2)
  * span_overlap (by_ b1) (bh b1) (by_ b2) (bh b2).

End OverlapSpec.

Export OverlapSpec.

(** ** Boxes and the image they are cut from *)

Module CropSpec.


(** The box is less than a pixel wide or high, or starts at the right or
    the lower edge of the image or beyond it, at a coordinate the integer
    of numpy holds. *)
Definition off_image (im : image) (b : bbox) : Prop :=
  (0 <= bw b /\ bw b < 1) \/ (0 <= bh b /\ bh b < 1)
  \/ (inject_Z (image_width im) <= bx b /\ bx b < inject_Z (2 ^ 31))
  \/ (inject_Z (image_height im) <= by_ b /\ by_ b < inject_Z (2 ^ 31)).

(** An image of 30 rows of 20 black pixels. *)
Definition shelf_image : image := replicate 30 (replicate 20 (0, 0, 0)%Z).

(** The sample world with that image behind every path. *)
Definition shelf_env (disk_ok : bool) : env :=
  {| md5_hexdigest := md5_hexdigest (sample_env disk_ok);
     requests_get := requests_get (sample_env disk_ok);
     uuid4_hex := uuid4_hex (sample_env disk_ok);
     os_path_join := os_path_join (sample_env disk_ok);
     path_base_name := path_base_name (sample_env disk_ok);
     can_write := can_write (sample_env disk_ok);
     image_open := fun _ => Some shelf_image |}.

(** A disk on which the first file of a session cannot be written and
    every later one can. *)
Definition flaky_env : env :=
  {| md5_hexdigest := md5_hexdigest (sample_env true);
     requests_get := requests_get (sample_env true);
     uuid4_hex := uuid4_hex (sample_env true);
     os_path_join := os_path_join (sample_env true);
     path_base_name := path_base_name (sample_env true);
     can_write := fun p => negb (String.prefix "out/uuid0_" p);
     image_open := image_open (sample_env true) |}.

End CropSpec.

Export CropSpec.

(** * Properties *)

(** ** numpy scalars and masks *)

Section NpFacts.

Lemma Qltb_lt (x y : Q) : Qltb x y = true <-> x < y.
Proof.
  unfold Qltb. rewrite negb_true_iff. split.
  - intros Hb. apply Qnot_le_lt. intros Hle.
    apply Qle_bool_iff in Hle. congruence.
  - intros Hlt. destruct (Qle_bool y x) eqn:Hb; [|reflexivity].
    apply Qle_bool_iff in Hb. lra.
Qed.

Lemma Qltb_ge (x y : Q) : Qltb x y = false <-> y <= x.
Proof.
  unfold Qltb. rewrite negb_false_iff. apply Qle_bool_iff.
Qed.

Lemma np_div_nonzero (a b : Q) : ~ b == 0 -> np_div a b = Fin (a / b).
Proof.
  intros Hb. unfold np_div. destruct (Qeq_bool b 0) eqn:Hz; [|reflexivity].
  apply Qeq_bool_iff in Hz. contradiction.
Qed.

Lemma np_div_zero (a b : Q) :
  b == 0 -> np_div a b = NaN \/ np_div a b = PosInf \/ np_div a b = NegInf.
Proof.
  intros Hb. unfold np_div. apply Qeq_bool_iff in Hb. rewrite Hb.
  destruct (Qeq_bool a 0); [|destruct (Qltb 0 a)]; auto.
Qed.

(** On a positive divisor [a / b >= c] is the exact inequality. *)
Lemma np_ge_div_pos (a b c : Q) :
  0 < b -> (np_ge (np_div a b) c = true <-> c * b <= a).
Proof.
  intros Hb. rewrite np_div_nonzero by lra. simpl.
  rewrite Qle_bool_iff. split; intros H.
  - apply (Qmult_le_compat_r _ _ b) in H; [|lra].
    assert (Hd : a / b * b == a) by (field; lra). lra.
  - apply Qle_shift_div_l; assumption.
Qed.

Lemma np_select_elem {A : Type} (a : list A) (mask : list bool) (x : A) :
  x ∈ np_select a mask <->
  exists i : nat, a !! i = Some x /\ mask !! i = Some true.
Proof.
  revert mask. induction a as [|y a IH]; intros [|b mask]; simpl.
  - split; [intros H; inversion H | intros (i & H & _); destruct i; discriminate].
  - split; [intros H; inversion H | intros (i & H & _); destruct i; discriminate].
  - split; [intros H; inversion H | intros (i & _ & H); destruct i; discriminate].
  - destruct b.
    + rewrite elem_of_cons, IH. split.
      * intros [-> | (i & Hi & Hm)]; [exists 0%nat; auto | exists (S i); auto].
      * intros ([|i] & Hi & Hm); simpl in *.
        -- left. congruence.
        -- right. eauto.
    + rewrite IH. split.
      * intros (i & Hi & Hm). exists (S i); auto.
      * intros ([|i] & Hi & Hm); simpl in *; [discriminate | eauto].
Qed.

Lemma np_select_sublist {A : Type} (a : list A) (mask : list bool) :
  np_select a mask `sublist_of` a.
Proof.
  revert mask. induction a as [|x a IH]; intros [|b mask]; simpl.
  - constructor.
  - constructor.
  - apply sublist_nil_l.
  - destruct b; constructor; apply IH.
Qed.

Lemma np_select_masks {A B : Type} (g : A -> B) (f h : B -> bool)
    (a : list A) :
  np_select a (zip_with andb (map f (map g a)) (map h (map g a)))
  = List.filter (fun x => f (g x) && h (g x)) a.
Proof.
  induction a as [|x a IH]; simpl; [reflexivity|].
  rewrite IH. reflexivity.
Qed.

End NpFacts.

(** ** Stage A: the aspect-ratio filter *)

Lemma ratio_mask_spec (low high : Q) (b : bbox) :
  np_lt (bbox_ratio b) high && np_gt (bbox_ratio b) low = true
  <-> ratio_strictly_between low high b.
Proof.
  unfold ratio_strictly_between, bbox_ratio.
  destruct (Qeq_dec (bw b) 0) as [Hz | Hnz].
  - split; [|tauto].
    destruct (np_div_zero (bh b) (bw b) Hz) as [-> | [-> | ->]];
      simpl; intros H; discriminate.
  - rewrite np_div_nonzero by assumption. simpl.
    rewrite andb_true_iff, !Qltb_lt. tauto.
Qed.

Lemma filter_by_constrain_filter (bboxes : list bbox) (low high : Q) :
  filter_by_constrain bboxes (low, high) bbox_ratio
  = List.filter
      (fun b => np_lt (bbox_ratio b) high && np_gt (bbox_ratio b) low)
      bboxes.
Proof. unfold filter_by_constrain. simpl. apply np_select_masks. Qed.

Lemma filter_by_constrain_elem (bboxes : list bbox) (low high : Q)
    (b : bbox) :
  b ∈ filter_by_constrain bboxes (low, high) bbox_ratio
  <-> b ∈ bboxes /\ ratio_strictly_between low high b.
Proof.
  rewrite filter_by_constrain_filter, !list_elem_of_In, filter_In.
  rewrite ratio_mask_spec. reflexivity.
Qed.

(** C2: the aspect-ratio filter keeps exactly the boxes whose ratio [h / w]
    lies strictly between the bounds, each box on its own (the filter
    distributes over concatenation and keeps a box or not whatever stands
    around it); of boxes with ratios 1.0, 2.0, 4.9, 5.0 and 6.0 the
    default bounds (1.5, 5) keep those with 2.0 and 4.9. *)
Theorem filter_by_constrain_exact :
  (forall (bboxes : list bbox) (low high : Q) (b : bbox),
      b ∈ filter_by_constrain bboxes (low, high) bbox_ratio
      <-> b ∈ bboxes /\ ratio_strictly_between low high b)
  /\ (forall (l1 l2 : list bbox) (low high : Q),
         filter_by_constrain (l1 ++ l2) (low, high) bbox_ratio
         = filter_by_constrain l1 (low, high) bbox_ratio
           ++ filter_by_constrain l2 (low, high) bbox_ratio)
  /\ filter_by_constrain
       [Bbox 0 0 10 10; Bbox 0 0 10 20; Bbox 0 0 10 49; Bbox 0 0 10 50;
        Bbox 0 0 10 60] default_constrain bbox_ratio
     = [Bbox 0 0 10 20; Bbox 0 0 10 49].
Proof.
  split; [|split].
  - intros. apply filter_by_constrain_elem.
  - intros. rewrite !filter_by_constrain_filter. apply List.filter_app.
  - vm_compute. reflexivity.
Qed.

(** ** Order of the survivors *)

Lemma filter_by_constrain_sublist (bboxes : list bbox) (constrain : Q * Q)
    (metric : bbox -> npfloat) :
  filter_by_constrain bboxes constrain metric `sublist_of` bboxes.
Proof. apply np_select_sublist. Qed.

Lemma suppress_inside_bboxes_sublist (bboxes : list bbox) (threshold : Q) :
  suppress_inside_bboxes bboxes threshold `sublist_of` bboxes.
Proof. apply np_select_sublist. Qed.

(** C10: the output of the aspect-ratio filter, of the suppression pass and
    of the two in sequence is a subsequence of the input: the survivors
    stand in their original relative order. *)
Theorem geometric_filter_preserves_order :
  forall (bboxes : list bbox) (constrain : Q * Q) (threshold : Q),
    filter_by_constrain bboxes constrain bbox_ratio `sublist_of` bboxes
    /\ suppress_inside_bboxes bboxes threshold `sublist_of` bboxes
    /\ suppress_inside_bboxes
         (filter_by_constrain bboxes constrain bbox_ratio) threshold
       `sublist_of` bboxes
    /\ filter_bboxes bboxes `sublist_of` bboxes.
Proof.
  intros bboxes constrain threshold.
  pose proof (filter_by_constrain_sublist bboxes constrain bbox_ratio) as HA.
  repeat split.
  - exact HA.
  - apply suppress_inside_bboxes_sublist.
  - etrans; [apply suppress_inside_bboxes_sublist | exact HA].
  - unfold filter_bboxes.
    etrans; [apply suppress_inside_bboxes_sublist
            | apply filter_by_constrain_sublist].
Qed.

(** ** Positive sizes *)

Lemma ratio_between_positive (low high : Q) (b : bbox) :
  0 <= low -> 0 <= bw b -> 0 <= bh b ->
  ratio_strictly_between low high b -> 0 < bw b /\ 0 < bh b.
Proof.
  intros Hlow Hw Hh (Hnz & Hlo & _).
  assert (Hwpos : 0 < bw b).
  { destruct (Qlt_le_dec 0 (bw b)) as [|Hle]; [assumption|].
    exfalso. apply Hnz. lra. }
  split; [assumption|].
  assert (Hr : 0 < bh b / bw b) by lra.
  assert (Hd : bh b / bw b * bw b == bh b) by (field; lra).
  assert (Hm : 0 < bh b / bw b * bw b) by (apply Qmult_lt_0_compat; assumption).
  lra.
Qed.

(** C4: when the oracle returns boxes of nonnegative width and height, every
    region [get_image_and_bboxes] returns, that is every region that passed
    the aspect-ratio filter and then the suppression pass, has a positive
    width and a positive height. *)
Theorem accepted_regions_positive (E : env) (image_path : string)
    (mask_generator : oracle) (im : image) (accepted : list bbox) :
  (forall (i : image) (raw : list bbox),
      mask_generator i = Some raw ->
      Forall (fun b => 0 <= bw b /\ 0 <= bh b) raw) ->
  get_image_and_bboxes E image_path mask_generator = (Some im, Some accepted) ->
  accepted = filter_bboxes (default [] (mask_generator im))
  /\ Forall (fun b => 0 < bw b /\ 0 < bh b) accepted.
Proof.
  intros Hraw Hget. unfold get_image_and_bboxes in Hget.
  destruct (image_open E image_path) as [i|]; [|discriminate].
  destruct (mask_generator i) as [raw|] eqn:Hmg; [|discriminate].
  injection Hget as <- <-. rewrite Hmg. simpl.
  split; [reflexivity|].
  apply Forall_forall. intros b Hb.
  assert (Hin : b ∈ filter_by_constrain raw default_constrain bbox_ratio).
  { eapply elem_of_sublist; [exact Hb|]. apply suppress_inside_bboxes_sublist. }
  apply (filter_by_constrain_elem raw (3 # 2) 5) in Hin as [Hin Hr].
  specialize (Hraw i raw Hmg). rewrite Forall_forall in Hraw.
  destruct (Hraw b Hin) as [Hw Hh].
  apply (ratio_between_positive (3 # 2) 5); [lra | assumption..].
Qed.

(** ** Stage B: containment suppression *)

Lemma intersection_area_disjoint (b1 b2 : bbox) :
  ~ (overlap_x b1 b2 /\ overlap_y b1 b2) -> intersection_area b1 b2 = 0.
Proof.
  intros Hno. unfold intersection_area. cbv zeta.
  destruct (Qle_bool _ _ || Qle_bool _ _) eqn:Hb; [reflexivity|].
  exfalso. apply Hno.
  apply orb_false_iff in Hb as [Hx Hy].
  assert (Hx' : ~ Qmin (bx b1 + bw b1) (bx b2 + bw b2)
                  <= Qmax (bx b1) (bx b2)).
  { intros H. apply Qle_bool_iff in H. congruence. }
  assert (Hy' : ~ Qmin (by_ b1 + bh b1) (by_ b2 + bh b2)
                  <= Qmax (by_ b1) (by_ b2)).
  { intros H. apply Qle_bool_iff in H. congruence. }
  clear Hx Hy Hno. unfold overlap_x, overlap_y.
  destruct (Q.max_spec (bx b1) (bx b2)) as [[? Ex1] | [? Ex1]];
  destruct (Q.min_spec (bx b1 + bw b1) (bx b2 + bw b2))
    as [[? Ex2] | [? Ex2]];
  destruct (Q.max_spec (by_ b1) (by_ b2)) as [[? Ey1] | [? Ey1]];
  destruct (Q.min_spec (by_ b1 + bh b1) (by_ b2 + bh b2))
    as [[? Ey2] | [? Ey2]];
  rewrite Ex1, Ex2 in Hx'; rewrite Ey1, Ey2 in Hy';
  repeat split; lra.
Qed.

Lemma intersection_area_overlap (b1 b2 : bbox) :
  overlap_x b1 b2 -> overlap_y b1 b2 -> 0 < intersection_area b1 b2.
Proof.
  unfold overlap_x, overlap_y. intros (? & ? & ? & ?) (? & ? & ? & ?).
  unfold intersection_area. cbv zeta.
  assert (Hx : Qmax (bx b1) (bx b2)
               < Qmin (bx b1 + bw b1) (bx b2 + bw b2)).
  { destruct (Q.max_spec (bx b1) (bx b2)) as [[? ->] | [? ->]];
    destruct (Q.min_spec (bx b1 + bw b1) (bx b2 + bw b2))
      as [[? ->] | [? ->]]; lra. }
  assert (Hy : Qmax (by_ b1) (by_ b2)
               < Qmin (by_ b1 + bh b1) (by_ b2 + bh b2)).
  { destruct (Q.max_spec (by_ b1) (by_ b2)) as [[? ->] | [? ->]];
    destruct (Q.min_spec (by_ b1 + bh b1) (by_ b2 + bh b2))
      as [[? ->] | [? ->]]; lra. }
  destruct (Qle_bool _ _ || Qle_bool _ _) eqn:Hb.
  - apply orb_true_iff in Hb as [Hb | Hb]; apply Qle_bool_iff in Hb; lra.
  - apply Qmult_lt_0_compat; lra.
Qed.

Section PairStep.

Variables (bboxes : list bbox) (threshold : Q).

Lemma pair_step_skipped (i j : nat) (keep : list bool) :
  ~ both_kept keep i j -> pair_step bboxes threshold i j keep = keep.
Proof.
  intros Hno. unfold pair_step.
  destruct (bboxes !! i), (bboxes !! j); try reflexivity.
  destruct (keep !! i) as [ki|] eqn:Hi; [|reflexivity].
  destruct (keep !! j) as [kj|] eqn:Hj; [|reflexivity].
  destruct (Nat.eqb i j) eqn:Hij; [reflexivity|].
  destruct ki, kj; simpl; try reflexivity.
  exfalso. apply Hno. apply Nat.eqb_neq in Hij. repeat split; congruence.
Qed.

Lemma pair_step_compared (i j : nat) (keep : list bool) (b_i b_j : bbox) :
  bboxes !! i = Some b_i -> bboxes !! j = Some b_j -> both_kept keep i j ->
  pair_step bboxes threshold i j keep
  = if Qltb (bbox_area b_i) (bbox_area b_j) then
      if np_ge (np_div (intersection_area b_i b_j) (bbox_area b_i)) threshold
      then <[i := false]> keep else keep
    else if Qltb (bbox_area b_j) (bbox_area b_i) then
      if np_ge (np_div (intersection_area b_i b_j) (bbox_area b_j)) threshold
      then <[j := false]> keep else keep
    else keep.
Proof.
  intros Hbi Hbj (Hne & Hi & Hj). unfold pair_step.
  rewrite Hbi, Hbj, Hi, Hj.
  apply Nat.eqb_neq in Hne. rewrite Hne. reflexivity.
Qed.

Lemma pair_step_first_smaller (i j : nat) (keep : list bool)
    (b_i b_j : bbox) :
  bboxes !! i = Some b_i -> bboxes !! j = Some b_j -> both_kept keep i j ->
  bbox_area b_i < bbox_area b_j ->
  pair_step bboxes threshold i j keep
  = if np_ge (np_div (intersection_area b_i b_j) (bbox_area b_i)) threshold
    then <[i := false]> keep else keep.
Proof.
  intros Hbi Hbj Hk Hlt. rewrite (pair_step_compared i j keep b_i b_j) by done.
  apply Qltb_lt in Hlt. rewrite Hlt. reflexivity.
Qed.

Lemma pair_step_second_smaller (i j : nat) (keep : list bool)
    (b_i b_j : bbox) :
  bboxes !! i = Some b_i -> bboxes !! j = Some b_j -> both_kept keep i j ->
  bbox_area b_j < bbox_area b_i ->
  pair_step bboxes threshold i j keep
  = if np_ge (np_div (intersection_area b_i b_j) (bbox_area b_j)) threshold
    then <[j := false]> keep else keep.
Proof.
  intros Hbi Hbj Hk Hlt. rewrite (pair_step_compared i j keep b_i b_j) by done.
  assert (Hge : Qltb (bbox_area b_i) (bbox_area b_j) = false)
    by (apply Qltb_ge; lra).
  apply Qltb_lt in Hlt. rewrite Hge, Hlt. reflexivity.
Qed.

Lemma pair_step_equal_areas (i j : nat) (keep : list bool)
    (b_i b_j : bbox) :
  bboxes !! i = Some b_i -> bboxes !! j = Some b_j ->
  bbox_area b_i == bbox_area b_j ->
  pair_step bboxes threshold i j keep = keep.
Proof.
  intros Hbi Hbj Heq. unfold pair_step. rewrite Hbi, Hbj.
  destruct (keep !! i), (keep !! j); try reflexivity.
  destruct (_ || _); [reflexivity|]. cbv zeta.
  assert (H1 : Qltb (bbox_area b_i) (bbox_area b_j) = false)
    by (apply Qltb_ge; lra).
  assert (H2 : Qltb (bbox_area b_j) (bbox_area b_i) = false)
    by (apply Qltb_ge; lra).
  rewrite H1, H2. reflexivity.
Qed.

(** The two loops visit every ordered pair of indices, row by row. *)
Lemma outer_loop_pairs (is_ : list nat) (keep : list bool) :
  outer_loop bboxes threshold is_ keep
  = fold_left (fun keep ij => pair_step bboxes threshold ij.1 ij.2 keep)
      (list_prod is_ (seq 0 (length bboxes))) keep.
Proof.
  unfold outer_loop, inner_loop. revert keep.
  induction is_ as [|i is_ IH]; intros keep; simpl; [reflexivity|].
  rewrite fold_left_app, IH. f_equal.
  generalize (seq 0 (length bboxes)). intros js. revert keep.
  induction js as [|j js IHj]; intros keep; simpl; [reflexivity|].
  apply IHj.
Qed.

Lemma insert_false_kept_within (i : nat) (keep : list bool) :
  kept_within (<[i := false]> keep) keep.
Proof.
  intros k Hk. apply list_lookup_insert_Some in Hk as [(_ & Hf & _) | [_ Hk]].
  - discriminate.
  - exact Hk.
Qed.

(** Discards are never undone. *)
Lemma pair_step_kept_within (i j : nat) (keep : list bool) :
  kept_within (pair_step bboxes threshold i j keep) keep.
Proof.
  unfold pair_step.
  repeat match goal with
         | |- kept_within (match ?x with _ => _ end) _ => destruct x
         | |- kept_within (if ?x then _ else _) _ => destruct x
         | |- kept_within (let _ := _ in _) _ => cbv zeta
         end;
    first [ apply insert_false_kept_within | intros k Hk; exact Hk ].
Qed.

End PairStep.

(** C1: the suppression pass runs the pair comparison over every ordered
    pair of indices.  A pair that is not two distinct, still kept regions
    is left alone; for a pair that is, the region of smaller area is
    discarded exactly when intersection / area(smaller) >= threshold and
    nothing else changes; a pair of equal areas changes nothing.  The
    intersection is 0 when the boxes do not overlap on both axes, and on a
    positive area the quotient test is the exact inequality.  With the
    default threshold 0.7 a box inside a larger one is dropped and
    disjoint boxes are both kept. *)
Theorem suppress_pair_rule :
  (forall (bboxes : list bbox) (threshold : Q),
      final_keep bboxes threshold
      = fold_left (fun keep ij => pair_step bboxes threshold ij.1 ij.2 keep)
          (list_prod (seq 0 (length bboxes)) (seq 0 (length bboxes)))
          (replicate (length bboxes) true))
  /\ (forall (bboxes : list bbox) (threshold : Q) (i j : nat)
             (keep : list bool) (b_i b_j : bbox),
         bboxes !! i = Some b_i -> bboxes !! j = Some b_j ->
         (~ both_kept keep i j ->
          pair_step bboxes threshold i j keep = keep)
         /\ (both_kept keep i j -> bbox_area b_i < bbox_area b_j ->
             pair_step bboxes threshold i j keep
             = if np_ge (np_div (intersection_area b_i b_j) (bbox_area b_i))
                    threshold
               then <[i := false]> keep else keep)
         /\ (both_kept keep i j -> bbox_area b_j < bbox_area b_i ->
             pair_step bboxes threshold i j keep
             = if np_ge (np_div (intersection_area b_i b_j) (bbox_area b_j))
                    threshold
               then <[j := false]> keep else keep)
         /\ (bbox_area b_i == bbox_area b_j ->
             pair_step bboxes threshold i j keep = keep))
  /\ (forall b1 b2 : bbox,
         ~ (overlap_x b1 b2 /\ overlap_y b1 b2) ->
         intersection_area b1 b2 = 0)
  /\ (forall inter area threshold : Q,
         0 < area ->
         (np_ge (np_div inter area) threshold = true
          <-> threshold * area <= inter))
  /\ suppress_inside_bboxes
       [Bbox 0 0 100 100; Bbox 10 10 50 50] default_threshold
     = [Bbox 0 0 100 100]
  /\ suppress_inside_bboxes
       [Bbox 0 0 10 10; Bbox 20 20 5 5] default_threshold
     = [Bbox 0 0 10 10; Bbox 20 20 5 5].
Proof.
  split; [|split; [|split; [|split; [|split]]]].
  - intros. apply outer_loop_pairs.
  - intros bboxes threshold i j keep b_i b_j Hbi Hbj.
    split; [|split; [|split]].
    + apply pair_step_skipped.
    + intros. by apply pair_step_first_smaller.
    + intros. by apply pair_step_second_smaller.
    + intros. by eapply pair_step_equal_areas.
  - apply intersection_area_disjoint.
  - intros. by apply np_ge_div_pos.
  - vm_compute. reflexivity.
  - vm_compute. reflexivity.
Qed.

Lemma suppress_pair_rule_witness :
  both_kept [true; true] 0 1
  /\ bbox_area (Bbox 10 10 50 50) < bbox_area (Bbox 0 0 100 100)
  /\ pair_step [Bbox 0 0 100 100; Bbox 10 10 50 50] default_threshold 0 1
       [true; true]
     = [true; false].
Proof.
  assert (Hk : both_kept [true; true] 0 1) by (repeat split; lia).
  assert (Ha : bbox_area (Bbox 10 10 50 50) < bbox_area (Bbox 0 0 100 100))
    by reflexivity.
  split; [exact Hk | split; [exact Ha |]].
  destruct suppress_pair_rule as (_ & Hrule & _).
  destruct (Hrule [Bbox 0 0 100 100; Bbox 10 10 50 50] default_threshold
              0%nat 1%nat [true; true] (Bbox 0 0 100 100) (Bbox 10 10 50 50)
              eq_refl eq_refl) as (_ & _ & Hsecond & _).
  rewrite (Hsecond Hk Ha). reflexivity.
Defined.

(** ** No accepted region is mostly inside a larger accepted one *)

Section FoldVisit.

Context {A S : Type} (f : S -> A -> S) (R : S -> S -> Prop).
Hypothesis R_refl : forall s : S, R s s.
Hypothesis R_trans : forall s1 s2 s3 : S, R s1 s2 -> R s2 s3 -> R s1 s3.
Hypothesis f_decr : forall (s : S) (a : A), R (f s a) s.

Lemma fold_left_decr (l : list A) (s : S) : R (fold_left f l s) s.
Proof.
  revert s. induction l as [|a l IH]; intros s; simpl; [apply R_refl|].
  eapply R_trans; [apply IH | apply f_decr].
Qed.

(** A fold whose steps only descend, seen from one element it visits: the
    final state lies below the state right after that visit. *)
Lemma fold_left_visit (l : list A) (s : S) (a : A) :
  In a l -> exists s0 : S, R s0 s /\ R (fold_left f l s) (f s0 a).
Proof.
  revert s. induction l as [|x l IH]; intros s Hin; [destruct Hin|].
  destruct Hin as [-> | Hin]; simpl.
  - exists s. split; [apply R_refl | apply fold_left_decr].
  - destruct (IH (f s x) Hin) as (s0 & Hs0 & Hfin).
    exists s0. split; [|exact Hfin].
    eapply R_trans; [exact Hs0 | apply f_decr].
Qed.

End FoldVisit.

Section Suppression.

Variables (bboxes : list bbox) (threshold : Q).

Lemma kept_within_refl (keep : list bool) : kept_within keep keep.
Proof. intros k Hk. exact Hk. Qed.

Lemma kept_within_trans (k1 k2 k3 : list bool) :
  kept_within k1 k2 -> kept_within k2 k3 -> kept_within k1 k3.
Proof. intros H12 H23 k Hk. apply H23, H12, Hk. Qed.

Lemma inner_loop_kept_within (i : nat) (js : list nat) (keep : list bool) :
  kept_within (inner_loop bboxes threshold i js keep) keep.
Proof.
  unfold inner_loop.
  apply (fold_left_decr _ kept_within kept_within_refl kept_within_trans).
  intros s j. apply pair_step_kept_within.
Qed.

(** The final [keep] array lies within the array right after the pair
    [(i, j)] was compared, and both lie within the array right before. *)
Lemma final_keep_after_pair (i j : nat) :
  (i < length bboxes)%nat -> (j < length bboxes)%nat ->
  exists keep : list bool,
    kept_within (final_keep bboxes threshold)
      (pair_step bboxes threshold i j keep).
Proof.
  intros Hi Hj. unfold final_keep, outer_loop.
  destruct (fold_left_visit
              (fun keep i =>
                 inner_loop bboxes threshold i (seq 0 (length bboxes)) keep)
              kept_within kept_within_refl kept_within_trans
              (fun s a => inner_loop_kept_within a _ s)
              (seq 0 (length bboxes)) (replicate (length bboxes) true) i)
    as (s0 & _ & Hfin).
  { apply in_seq. lia. }
  destruct (fold_left_visit
              (fun keep j => pair_step bboxes threshold i j keep)
              kept_within kept_within_refl kept_within_trans
              (fun s a => pair_step_kept_within bboxes threshold i a s)
              (seq 0 (length bboxes)) s0 j)
    as (s1 & _ & Hin).
  { apply in_seq. lia. }
  exists s1. eapply kept_within_trans; [exact Hfin | exact Hin].
Qed.

Lemma insert_false_not_kept (i : nat) (keep : list bool) :
  <[i := false]> keep !! i <> Some true.
Proof.
  intros H. apply list_lookup_insert_Some in H as [(_ & Hf & _) | [Hne _]];
    [discriminate | congruence].
Qed.

(** Two regions kept to the end were compared while both were kept, in
    both orders, and neither comparison discarded the smaller one. *)
Lemma final_keep_no_overlap (p q : nat) (b_p b_q : bbox) :
  bboxes !! p = Some b_p -> bboxes !! q = Some b_q ->
  final_keep bboxes threshold !! p = Some true ->
  final_keep bboxes threshold !! q = Some true ->
  bbox_area b_p < bbox_area b_q ->
  np_ge (np_div (intersection_area b_p b_q) (bbox_area b_p)) threshold
  = false
  /\ np_ge (np_div (intersection_area b_q b_p) (bbox_area b_p)) threshold
     = false.
Proof.
  intros Hbp Hbq Hkp Hkq Hlt.
  assert (Hne : p <> q).
  { intros ->. rewrite Hbp in Hbq. injection Hbq as ->. lra. }
  assert (Hp : (p < length bboxes)%nat) by (eapply lookup_lt_Some; eauto).
  assert (Hq : (q < length bboxes)%nat) by (eapply lookup_lt_Some; eauto).
  split.
  - destruct (final_keep_after_pair p q Hp Hq) as (keep & Hfin).
    pose proof (Hfin p Hkp) as Hp2. pose proof (Hfin q Hkq) as Hq2.
    pose proof (pair_step_kept_within bboxes threshold p q keep) as Hmono.
    assert (Hboth : both_kept keep p q)
      by (repeat split; [exact Hne | apply Hmono, Hp2 | apply Hmono, Hq2]).
    rewrite (pair_step_first_smaller bboxes threshold p q keep b_p b_q)
      in Hp2 by done.
    destruct (np_ge _ threshold); [|reflexivity].
    exfalso. exact (insert_false_not_kept p keep Hp2).
  - destruct (final_keep_after_pair q p Hq Hp) as (keep & Hfin).
    pose proof (Hfin p Hkp) as Hp2. pose proof (Hfin q Hkq) as Hq2.
    pose proof (pair_step_kept_within bboxes threshold q p keep) as Hmono.
    assert (Hboth : both_kept keep q p)
      by (repeat split; [congruence | apply Hmono, Hq2 | apply Hmono, Hp2]).
    rewrite (pair_step_second_smaller bboxes threshold q p keep b_q b_p)
      in Hp2 by done.
    destruct (np_ge _ threshold); [|reflexivity].
    exfalso. exact (insert_false_not_kept p keep Hp2).
Qed.

End Suppression.

Lemma span_overlap_cases (a1 l1 a2 l2 : Q) :
  (Qmin (a1 + l1) (a2 + l2) <= Qmax a1 a2 /\ span_overlap a1 l1 a2 l2 == 0)
  \/ (Qmax a1 a2 < Qmin (a1 + l1) (a2 + l2)
      /\ span_overlap a1 l1 a2 l2 == Qmin (a1 + l1) (a2 + l2) - Qmax a1 a2).
Proof.
  unfold span_overlap.
  destruct (Q.max_spec 0 (Qmin (a1 + l1) (a2 + l2) - Qmax a1 a2))
    as [[Hlt ->] | [Hle ->]]; [right | left]; split; lra.
Qed.

(** The intersection the code computes is the area the boxes share. *)
Lemma intersection_area_is_overlap (b1 b2 : bbox) :
  intersection_area b1 b2 == overlap_area b1 b2.
Proof.
  unfold intersection_area, overlap_area. cbv zeta.
  destruct (span_overlap_cases (bx b1) (bw b1) (bx b2) (bw b2))
    as [[Hx Ex] | [Hx Ex]];
    destruct (span_overlap_cases (by_ b1) (bh b1) (by_ b2) (bh b2))
      as [[Hy Ey] | [Hy Ey]];
    rewrite Ex, Ey;
    destruct (Qle_bool (Qmin (bx b1 + bw b1) (bx b2 + bw b2))
                (Qmax (bx b1) (bx b2))) eqn:Hbx;
    destruct (Qle_bool (Qmin (by_ b1 + bh b1) (by_ b2 + bh b2))
                (Qmax (by_ b1) (by_ b2))) eqn:Hby;
    cbn [orb];
    try (apply Qle_bool_iff in Hbx); try (apply Qle_bool_iff in Hby);
    try (apply Qle_bool_iff in Hx; congruence);
    try (apply Qle_bool_iff in Hy; congruence);
    try lra; ring.
Qed.

(** A box that lies within two boxes is no larger than what they share. *)
Lemma common_box_le_overlap (c b1 b2 : bbox) :
  nonneg_size c -> inside c b1 -> inside c b2 ->
  bbox_area c <= overlap_area b1 b2.
Proof.
  intros [Hw Hh] (Hx1 & Hx2 & Hy1 & Hy2) (Hx3 & Hx4 & Hy3 & Hy4).
  unfold bbox_area, overlap_area.
  assert (Hsx : bw c <= span_overlap (bx b1) (bw b1) (bx b2) (bw b2)).
  { destruct (span_overlap_cases (bx b1) (bw b1) (bx b2) (bw b2))
      as [[Hle ->] | [Hlt ->]];
    destruct (Q.max_spec (bx b1) (bx b2)) as [[? E1] | [? E1]];
    destruct (Q.min_spec (bx b1 + bw b1) (bx b2 + bw b2))
      as [[? E2] | [? E2]]; rewrite ?E1, ?E2 in *; lra. }
  assert (Hsy : bh c <= span_overlap (by_ b1) (bh b1) (by_ b2) (bh b2)).
  { destruct (span_overlap_cases (by_ b1) (bh b1) (by_ b2) (bh b2))
      as [[Hle ->] | [Hlt ->]];
    destruct (Q.max_spec (by_ b1) (by_ b2)) as [[? E1] | [? E1]];
    destruct (Q.min_spec (by_ b1 + bh b1) (by_ b2 + bh b2))
      as [[? E2] | [? E2]]; rewrite ?E1, ?E2 in *; lra. }
  apply Qmult_le_compat_nonneg; split; assumption.
Qed.

Lemma np_ge_false_fraction_below (inter area threshold : Q) :
  0 < area -> np_ge (np_div inter area) threshold = false ->
  inter < threshold * area.
Proof.
  intros Hpos Hge. apply Qnot_le_lt. intros Hle.
  apply (np_ge_div_pos inter area threshold Hpos) in Hle. congruence.
Qed.

(** C3: in the output of the suppression pass no two survivors of distinct
    areas have an intersection that, divided by the smaller area, reaches
    the threshold (whichever of the two is passed first to the
    intersection).  Measured on the boxes themselves: the area the smaller
    survivor shares with the larger one is less than the threshold
    fraction of its own area, and so is the area of every box that lies
    within both. *)
Theorem suppress_no_overlap_remains (bboxes : list bbox) (threshold : Q)
    (smaller larger : bbox) :
  smaller ∈ suppress_inside_bboxes bboxes threshold ->
  larger ∈ suppress_inside_bboxes bboxes threshold ->
  bbox_area smaller < bbox_area larger ->
  np_ge (np_div (intersection_area smaller larger) (bbox_area smaller))
    threshold = false
  /\ np_ge (np_div (intersection_area larger smaller) (bbox_area smaller))
       threshold = false
  /\ (0 < bbox_area smaller ->
      overlap_area smaller larger < threshold * bbox_area smaller
      /\ forall c : bbox,
           nonneg_size c -> inside c smaller -> inside c larger ->
           bbox_area c < threshold * bbox_area smaller).
Proof.
  unfold suppress_inside_bboxes. intros Hs Hl Hlt.
  apply np_select_elem in Hs as (p & Hbp & Hkp).
  apply np_select_elem in Hl as (q & Hbq & Hkq).
  destruct (final_keep_no_overlap bboxes threshold p q smaller larger
              Hbp Hbq Hkp Hkq Hlt) as [H1 H2].
  split; [exact H1|]. split; [exact H2|].
  intros Hpos.
  assert (Hshare : overlap_area smaller larger
                   < threshold * bbox_area smaller).
  { rewrite <- intersection_area_is_overlap.
    by apply np_ge_false_fraction_below. }
  split; [exact Hshare|].
  intros c Hc Hcs Hcl.
  pose proof (common_box_le_overlap c smaller larger Hc Hcs Hcl). lra.
Qed.

Lemma suppress_no_overlap_remains_witness :
  np_ge (np_div (intersection_area (Bbox 8 8 5 5) (Bbox 0 0 10 10))
           (bbox_area (Bbox 8 8 5 5))) default_threshold = false
  /\ np_ge (np_div (intersection_area (Bbox 0 0 10 10) (Bbox 8 8 5 5))
              (bbox_area (Bbox 8 8 5 5))) default_threshold = false
  /\ (0 < bbox_area (Bbox 8 8 5 5) ->
      overlap_area (Bbox 8 8 5 5) (Bbox 0 0 10 10)
      < default_threshold * bbox_area (Bbox 8 8 5 5)
      /\ forall c : bbox,
           nonneg_size c -> inside c (Bbox 8 8 5 5) ->
           inside c (Bbox 0 0 10 10) ->
           bbox_area c < default_threshold * bbox_area (Bbox 8 8 5 5)).
Proof.
  apply (suppress_no_overlap_remains
           [Bbox 0 0 10 10; Bbox 8 8 5 5] default_threshold).
  - apply np_select_elem. exists 1%nat. split; reflexivity.
  - apply np_select_elem. exists 0%nat. split; reflexivity.
  - reflexivity.
Defined.

Lemma accepted_regions_positive_witness :
  [Bbox 0 0 10 20] = filter_bboxes (default [] (sample_oracle [[(0, 0, 0)%Z]]))
  /\ Forall (fun b => 0 < bw b /\ 0 < bh b) [Bbox 0 0 10 20].
Proof.
  apply (accepted_regions_positive (sample_env true) "shelf.png"
           sample_oracle [[(0, 0, 0)%Z]] [Bbox 0 0 10 20]).
  - intros i raw Hraw. injection Hraw as <-.
    repeat constructor; discriminate.
  - vm_compute. reflexivity.
Defined.

(** ** The deduplicating downloader *)

Section FetchFacts.

Variable E : env.
Variable output_dir : string.

Lemma download_image_request_fails (u : string) (dedup : gset string)
    (w : world) :
  request_fails E u -> download_image E u output_dir dedup w = (None, dedup, w).
Proof.
  unfold request_fails, download_image.
  destruct (requests_get E u) as [|status c]; [reflexivity|].
  intros Hst. destruct (Z.eqb_spec status 200); [contradiction | reflexivity].
Qed.

Lemma download_image_seen (u : string) (c : list Byte.byte)
    (dedup : gset string) (w : world) :
  requests_get E u = Response 200 c -> md5_hexdigest E c ∈ dedup ->
  download_image E u output_dir dedup w = (None, dedup, w).
Proof.
  intros Hget Hin. unfold download_image, compute_md5. rewrite Hget. simpl.
  destruct (decide _); [reflexivity | contradiction].
Qed.

Lemma download_image_fresh (u : string) (c : list Byte.byte)
    (dedup : gset string) (w : world) :
  requests_get E u = Response 200 c -> md5_hexdigest E c ∉ dedup ->
  download_image E u output_dir dedup w
  = if can_write E (target_path E output_dir c w)
    then (Some (target_path E output_dir c w),
          {[md5_hexdigest E c]} ∪ dedup,
          write_file (target_path E output_dir c w) (Bytes c) (draw_uuid w))
    else (None, {[md5_hexdigest E c]} ∪ dedup, draw_uuid w).
Proof.
  intros Hget Hin. unfold download_image, compute_md5, target_path.
  rewrite Hget. simpl.
  destruct (decide _); [contradiction | reflexivity].
Qed.

(** The session set only grows. *)
Lemma download_image_grows (u : string) (dedup : gset string) (w : world) :
  dedup ⊆ (download_image E u output_dir dedup w).1.2.
Proof.
  unfold download_image.
  destruct (requests_get E u) as [|status c]; [done|].
  destruct (status =? 200)%Z; [|done].
  destruct (decide _); [done|].
  destruct (can_write E _); simpl; set_solver.
Qed.

(** Bytes whose fingerprint is in the set are not written again, whatever
    is fetched. *)
Lemma download_image_files_with (u : string) (c : list Byte.byte)
    (dedup : gset string) (w : world) :
  md5_hexdigest E c ∈ dedup ->
  files_with c (download_image E u output_dir dedup w).2 = files_with c w.
Proof.
  intros Hin. unfold download_image.
  destruct (requests_get E u) as [|status c']; [done|].
  destruct (status =? 200)%Z; [|done].
  destruct (decide _) as [|Hnew]; [done|].
  destruct (can_write E _); [|done].
  unfold files_with, write_file, compute_md5 in *. simpl.
  rewrite filter_app, filter_cons_False, filter_nil, app_nil_r; [done|].
  simpl. intros Heq. injection Heq as ->. contradiction.
Qed.

Lemma download_all_files_with (urls : list string) (c : list Byte.byte)
    (dedup : gset string) (w : world) :
  md5_hexdigest E c ∈ dedup ->
  md5_hexdigest E c ∈ (download_all E urls output_dir dedup w).1.2
  /\ files_with c (download_all E urls output_dir dedup w).2 = files_with c w
  /\ length (download_all E urls output_dir dedup w).1.1 = length urls.
Proof.
  revert dedup w. induction urls as [|u urls IH]; intros dedup w Hin; [done|].
  simpl.
  pose proof (download_image_grows u dedup w) as Hgrow.
  pose proof (download_image_files_with u c dedup w Hin) as Hfiles.
  destruct (download_image E u output_dir dedup w) as [[r d1] w1].
  simpl in Hgrow, Hfiles.
  assert (Hin1 : md5_hexdigest E c ∈ d1) by (apply Hgrow, Hin).
  specialize (IH d1 w1 Hin1).
  destruct (download_all E urls output_dir d1 w1) as [[rs d2] w2].
  simpl in *. destruct IH as (? & ? & ?). repeat split; congruence.
Qed.

Lemma download_all_app (urls1 urls2 : list string) (dedup : gset string)
    (w : world) :
  download_all E (urls1 ++ urls2) output_dir dedup w
  = let '(rs1, d1, w1) := download_all E urls1 output_dir dedup w in
    let '(rs2, d2, w2) := download_all E urls2 output_dir d1 w1 in
    (rs1 ++ rs2, d2, w2).
Proof.
  revert dedup w. induction urls1 as [|u urls1 IH]; intros dedup w; simpl.
  - destruct (download_all E urls2 output_dir dedup w) as [[? ?] ?]. done.
  - destruct (download_image E u output_dir dedup w) as [[r d0] w0].
    rewrite IH.
    destruct (download_all E urls1 output_dir d0 w0) as [[rs1 d1] w1].
    destruct (download_all E urls2 output_dir d1 w1) as [[rs2 d2] w2].
    done.
Qed.

End FetchFacts.

(** C6: in one session (one set), when unseen bytes are fetched with
    success and written, then anything else is fetched, then the same
    bytes are fetched again, the first fetch returns the saved path, the
    second returns no result, and of all the files on disk afterwards
    exactly one more than before holds those bytes: the one the first
    fetch wrote.  With nothing in between, the two fetches return the path
    and [None] and add that single file to the disk. *)
Theorem download_image_dedup_once (E : env) (output_dir url1 url2 : string)
    (between : list string) (c : list Byte.byte) (dedup : gset string)
    (w : world) :
  requests_get E url1 = Response 200 c ->
  requests_get E url2 = Response 200 c ->
  md5_hexdigest E c ∉ dedup ->
  can_write E (target_path E output_dir c w) = true ->
  let saved := target_path E output_dir c w in
  let '(results, _, w') :=
    download_all E (url1 :: between ++ [url2]) output_dir dedup w in
  head results = Some (Some saved)
  /\ last results = Some None
  /\ length results = S (S (length between))
  /\ files_with c w' = files_with c w ++ [(saved, Bytes c)]
  /\ (between = [] ->
      results = [Some saved; None]
      /\ files w' = files w ++ [(saved, Bytes c)]).
Proof.
  intros Hget1 Hget2 Hnew Hwrite saved.
  change (url1 :: between ++ [url2]) with ([url1] ++ between ++ [url2]).
  rewrite !download_all_app. simpl.
  rewrite (download_image_fresh E output_dir url1 c dedup w Hget1 Hnew).
  rewrite Hwrite. fold saved.
  set (d1 := {[md5_hexdigest E c]} ∪ dedup).
  set (w1 := write_file saved (Bytes c) (draw_uuid w)).
  rewrite download_all_app.
  assert (Hin1 : md5_hexdigest E c ∈ d1)
    by (apply elem_of_union_l, elem_of_singleton; reflexivity).
  pose proof (download_all_files_with E output_dir between c d1 w1 Hin1)
    as (Hin2 & Hfiles & Hlen).
  assert (Hnil : between = [] ->
                 download_all E between output_dir d1 w1 = ([], d1, w1))
    by (intros ->; reflexivity).
  destruct (download_all E between output_dir d1 w1) as [[rs d2] w2].
  simpl in Hin2, Hfiles, Hlen.
  cbn [download_all].
  rewrite (download_image_seen E output_dir url2 c d2 w2 Hget2 Hin2).
  simpl. repeat split.
  - rewrite last_cons, last_snoc. reflexivity.
  - rewrite length_app. simpl. lia.
  - rewrite Hfiles. unfold files_with, w1, write_file. simpl.
    rewrite filter_app, filter_cons_True, filter_nil; reflexivity.
  - specialize (Hnil H). injection Hnil as -> _ _. reflexivity.
  - specialize (Hnil H). injection Hnil as _ _ ->. reflexivity.
Qed.

Lemma download_image_dedup_once_witness :
  let '(results, _, w') :=
    download_all (sample_env true) ["http://a"; "http://b"; "http://mirror/a"]
      "out" ∅ empty_world in
  head results
  = Some (Some (target_path (sample_env true) "out" (payload "http://a")
                  empty_world))
  /\ last results = Some None
  /\ length results = 3%nat
  /\ files_with (payload "http://a") w'
     = files_with (payload "http://a") empty_world
       ++ [(target_path (sample_env true) "out" (payload "http://a")
              empty_world, Bytes (payload "http://a"))]
  /\ (["http://b"] = [] ->
      results
      = [Some (target_path (sample_env true) "out" (payload "http://a")
                 empty_world); None]
      /\ files w'
         = files empty_world
           ++ [(target_path (sample_env true) "out" (payload "http://a")
                  empty_world, Bytes (payload "http://a"))]).
Proof.
  apply (download_image_dedup_once (sample_env true) "out" "http://a"
           "http://mirror/a" ["http://b"] (payload "http://a") ∅ empty_world).
  - reflexivity.
  - reflexivity.
  - apply not_elem_of_empty.
  - reflexivity.
Defined.

(** What a failed request leaves behind, and what a failed write does. *)
Lemma download_image_write_fails (E : env) (img_url output_dir : string)
    (dedup : gset string) (w : world) :
  write_fails E img_url output_dir dedup w ->
  exists c : list Byte.byte,
    requests_get E img_url = Response 200 c
    /\ download_image E img_url output_dir dedup w
       = (None, {[md5_hexdigest E c]} ∪ dedup, draw_uuid w).
Proof.
  unfold write_fails.
  destruct (requests_get E img_url) as [|status c] eqn:Hget; [tauto|].
  intros (-> & Hnew & Hdisk). exists c. split; [reflexivity|].
  rewrite (download_image_fresh E output_dir img_url c dedup w Hget Hnew).
  rewrite Hdisk. reflexivity.
Qed.

(** The two kinds of failure: when the request raises or answers with a
    status other than 200, [download_image] returns no result and leaves
    the set of seen fingerprints, and the disk, as they were.  When the
    request succeeds with unseen bytes and the file cannot be written, it
    returns no result, but the fingerprint of those bytes is in the set
    from then on. *)
Theorem download_image_failure (E : env) (img_url output_dir : string)
    (dedup : gset string) (w : world) :
  (request_fails E img_url ->
   download_image E img_url output_dir dedup w = (None, dedup, w))
  /\ (write_fails E img_url output_dir dedup w ->
      exists c : list Byte.byte,
        requests_get E img_url = Response 200 c
        /\ (download_image E img_url output_dir dedup w).1.1 = None
        /\ (download_image E img_url output_dir dedup w).1.2
           = {[md5_hexdigest E c]} ∪ dedup).
Proof.
  split.
  - apply download_image_request_fails.
  - intros Hw.
    destruct (download_image_write_fails E img_url output_dir dedup w Hw)
      as (c & Hget & ->).
    exists c. repeat split. exact Hget.
Qed.

Lemma download_image_failure_witness :
  download_image (sample_env true) "http://gone" "out" ∅ empty_world
  = (None, ∅, empty_world)
  /\ exists c : list Byte.byte,
       requests_get (sample_env false) "http://a" = Response 200 c
       /\ (download_image (sample_env false) "http://a" "out" ∅
             empty_world).1.1 = None
       /\ (download_image (sample_env false) "http://a" "out" ∅
             empty_world).1.2
          = {[md5_hexdigest (sample_env false) c]} ∪ ∅.
Proof.
  split.
  - apply (download_image_failure (sample_env true) "http://gone" "out" ∅
             empty_world).
    unfold request_fails. simpl. discriminate.
  - apply (download_image_failure (sample_env false) "http://a" "out" ∅
             empty_world).
    unfold write_fails. simpl. repeat split. apply not_elem_of_empty.
Defined.

(** The fetch is not atomic on failure: a write that fails after the
    fingerprint was inserted is a failing execution that changes the
    set. *)
Lemma download_image_failure_not_atomic :
  ~ (forall (E : env) (img_url output_dir : string) (dedup : gset string)
            (w : world),
        fetch_fails E img_url output_dir dedup w ->
        (download_image E img_url output_dir dedup w).1.1 = None
        /\ (download_image E img_url output_dir dedup w).1.2 = dedup).
Proof.
  intros Hclaim.
  assert (Hw : write_fails (sample_env false) "http://a" "out" ∅ empty_world).
  { unfold write_fails. simpl. repeat split. apply not_elem_of_empty. }
  destruct (Hclaim (sample_env false) "http://a" "out" ∅ empty_world
              (or_intror Hw)) as [_ Hset].
  destruct (download_image_write_fails _ _ _ _ _ Hw) as (c & _ & Hrun).
  rewrite Hrun in Hset. simpl in Hset.
  assert (Hin : md5_hexdigest (sample_env false) c ∈ (∅ : gset string)).
  { rewrite <- Hset. apply elem_of_union_l, elem_of_singleton. reflexivity. }
  exact (not_elem_of_empty _ Hin).
Qed.

(** C7, on the code: [dedup_set.add(hash_val)] comes before the file is
    opened and is not undone.  On a disk that refuses the first file, the
    fetch of unseen bytes fails, returns no result, and yet leaves their
    fingerprint in the set; the same bytes fetched again are then turned
    down as a duplicate, although the disk would now take the file and no
    file holds them. *)
Theorem download_image_write_fault_keeps_fingerprint :
  fetch_fails flaky_env "http://a" "out" ∅ empty_world
  /\ (download_image flaky_env "http://a" "out" ∅ empty_world).1.1 = None
  /\ (download_image flaky_env "http://a" "out" ∅ empty_world).1.2
     = {[md5_hexdigest flaky_env (payload "http://a")]} ∪ ∅
  /\ (download_image flaky_env "http://a" "out" ∅ empty_world).1.2 <> ∅
  /\ can_write flaky_env
       (target_path flaky_env "out" (payload "http://a")
          (draw_uuid empty_world)) = true
  /\ (download_all flaky_env ["http://a"; "http://mirror/a"] "out" ∅
        empty_world).1.1 = [None; None]
  /\ files (download_all flaky_env ["http://a"; "http://mirror/a"] "out" ∅
              empty_world).2 = [].
Proof.
  assert (Hw : write_fails flaky_env "http://a" "out" ∅ empty_world).
  { unfold write_fails. simpl. repeat split. apply not_elem_of_empty. }
  assert (Hfirst : download_image flaky_env "http://a" "out" ∅ empty_world
                   = (None,
                      {[md5_hexdigest flaky_env (payload "http://a")]} ∪ ∅,
                      draw_uuid empty_world)).
  { destruct (download_image_write_fails _ _ _ _ _ Hw) as (c & Hget & Hrun).
    injection Hget as <-. exact Hrun. }
  assert (Hin : md5_hexdigest flaky_env (payload "http://a")
                ∈ ({[md5_hexdigest flaky_env (payload "http://a")]} ∪ ∅
                   : gset string))
    by (apply elem_of_union_l, elem_of_singleton; reflexivity).
  split; [by right|]. rewrite Hfirst. cbn [fst snd].
  split; [reflexivity|]. split; [reflexivity|].
  split; [intros Hempty; rewrite Hempty in Hin;
          exact (not_elem_of_empty _ Hin)|].
  split; [reflexivity|].
  cbn [download_all]. rewrite Hfirst.
  rewrite (download_image_seen flaky_env "out" "http://mirror/a"
             (payload "http://a") _ _ eq_refl Hin).
  split; reflexivity.
Qed.

(** ** Images without regions *)

(** The persist step itself has no guard: called with no region it still
    creates the directories and a CSV of the header alone.  The guard is in
    [image_pipeline]. *)
Lemma extract_and_save_bboxes_no_region (E : env) (im : image)
    (bbox_dir csv_dir image_path : string) (w : world) :
  can_write E bbox_dir = true -> can_write E csv_dir = true ->
  can_write E (os_path_join E csv_dir (path_base_name E image_path +:+ ".csv"))
  = true ->
  extract_and_save_bboxes E im [] bbox_dir csv_dir image_path w
  = (Returned (),
     write_file
       (os_path_join E csv_dir (path_base_name E image_path +:+ ".csv"))
       (Csv csv_header []) (makedirs csv_dir (makedirs bbox_dir w))).
Proof.
  intros Hb Hc Hw. unfold extract_and_save_bboxes.
  rewrite Hb, Hc. simpl. rewrite Hw. reflexivity.
Qed.

(** C8: for an image whose filtering accepts no region, [image_pipeline]
    returns [False] and leaves the disk as it was: the persist step is not
    run, so no crop file and no CSV record is written for that image (and
    no directory is made). *)
Theorem image_pipeline_no_regions (E : env) (image_path : string)
    (mask_generator : oracle) (bboxes_dir csv_dir : string) (w : world) :
  accepted_regions E image_path mask_generator = [] ->
  let '(status, w') :=
    image_pipeline E image_path mask_generator bboxes_dir csv_dir w in
  status = Returned false
  /\ w' = w
  /\ List.filter is_crop (files w') = List.filter is_crop (files w)
  /\ List.filter is_csv (files w') = List.filter is_csv (files w).
Proof.
  unfold accepted_regions, image_pipeline. intros Hnone.
  destruct (get_image_and_bboxes E image_path mask_generator)
    as [[im|] [bbox|]] eqn:Hget; simpl in Hnone.
  - subst bbox. simpl. auto.
  - unfold get_image_and_bboxes in Hget.
    destruct (image_open E image_path); [|discriminate].
    destruct (mask_generator i); discriminate.
  - auto.
  - auto.
Qed.

Lemma image_pipeline_no_regions_witness :
  let '(status, w') :=
    image_pipeline (sample_env true) "shelf.png"
      (fun _ => Some [Bbox 0 0 10 10; Bbox 0 0 10 60]) "bboxes" "csv"
      empty_world in
  status = Returned false
  /\ w' = empty_world
  /\ List.filter is_crop (files w') = List.filter is_crop (files empty_world)
  /\ List.filter is_csv (files w') = List.filter is_csv (files empty_world).
Proof.
  apply (image_pipeline_no_regions (sample_env true) "shelf.png"
           (fun _ => Some [Bbox 0 0 10 10; Bbox 0 0 10 60]) "bboxes" "csv"
           empty_world).
  vm_compute. reflexivity.
Defined.

(** ** The batch generator: release of the browser session *)

Section HarvestFacts.

Variable E : env.
Variable chrome : string -> browser.
Variables (prompt output_dir : string) (batch_size : nat).

Lemma loop_body_outcome (g : gen) (br : browser) (imgs : list element)
    (w : world) :
  match loop_body E output_dir batch_size g br imgs w with
  | (Continue, g', _) => at_pc g' = LoopHead
  | (Yield _, g', _) => at_pc g' = YieldedInLoop
  | (StopIteration, _, _) | (Raise, _, _) => False
  end.
Proof.
  unfold loop_body.
  destruct (imgs !! idx g) as [[src|]|]; try reflexivity.
  destruct (skip_url src); [reflexivity|].
  destruct (download_image E _ output_dir (dedup_set g) w) as [[r d] w'].
  destruct (Nat.eqb _ batch_size); reflexivity.
Qed.

(** A step that ends the generator by [StopIteration] has run
    [driver.quit()]; any other step of a live generator leaves it live. *)
Lemma step_live (g : gen) (w : world) :
  at_pc g <> Finished ->
  match step E chrome prompt output_dir batch_size g w with
  | (Continue, g', _) | (Yield _, g', _) => at_pc g' <> Finished
  | (StopIteration, g', _) => driver_quit g' = true
  | (Raise, _, _) => True
  end.
Proof.
  intros Hlive. unfold step.
  destruct (at_pc g) eqn:Hpc; try done.
  - destruct (find_elements _); done.
  - destruct (driver g) as [br|]; [|done].
    assert (Hbody : forall br' imgs,
               match loop_body E output_dir batch_size g br' imgs w with
               | (Continue, g', _) | (Yield _, g', _) => at_pc g' <> Finished
               | (StopIteration, g', _) => driver_quit g' = true
               | (Raise, _, _) => True
               end).
    { intros br' imgs. pose proof (loop_body_outcome g br' imgs w) as Hb.
      destruct (loop_body E output_dir batch_size g br' imgs w)
        as [[[] g'] w']; try done; congruence. }
    destruct (Nat.leb _ _); [|apply Hbody].
    destruct (find_elements _) as [imgs|]; [|done].
    destruct (Nat.leb _ _); [|apply Hbody].
    unfold after_loop. simpl. destruct (batch g); done.
Qed.

(** Pulled to exhaustion, the generator releases the session. *)
Lemma gen_all_exhausted_quits (fuel : nat) (g : gen) (w : world)
    (bs : list (list string)) (g' : gen) (w' : world) :
  at_pc g <> Finished ->
  gen_all E chrome prompt output_dir batch_size fuel g w
  = Some (bs, true, g', w') ->
  driver_quit g' = true.
Proof.
  revert g w bs. induction fuel as [|fuel IH]; intros g w bs Hlive Hrun;
    [discriminate|].
  simpl in Hrun. pose proof (step_live g w Hlive) as Hstep.
  destruct (step E chrome prompt output_dir batch_size g w)
    as [[[| b | |] g1] w1].
  - exact (IH g1 w1 bs Hstep Hrun).
  - destruct (gen_all E chrome prompt output_dir batch_size fuel g1 w1)
      as [[[[bs1 ok] g2] w2]|] eqn:Hrest; [|discriminate].
    injection Hrun as _ Hok Hg Hw. subst ok g2 w2.
    exact (IH g1 w1 bs1 Hstep Hrest).
  - injection Hrun as _ Hg _. subst g1. exact Hstep.
  - discriminate.
Qed.

(** Closing a generator suspended at a [yield] ends it where it stands:
    [driver.quit()] is not run. *)
Lemma gen_close_suspended (g : gen) :
  at_pc g = YieldedInLoop \/ at_pc g = YieldedLast ->
  at_pc (gen_close g) = Finished
  /\ driver (gen_close g) = driver g
  /\ driver_quit (gen_close g) = driver_quit g.
Proof. intros [Hpc | Hpc]; unfold gen_close; rewrite Hpc; done. Qed.

End HarvestFacts.

(** C9, on the code: with two images on the page and batches of one, the
    first [next] yields the first batch; when the caller stops there and
    the generator is closed, it is finished with the browser session
    acquired and never quit.  The same holds when the driver fails while
    more images are looked for.  Only a generator pulled to its end runs
    [driver.quit()]. *)
Theorem harvester_early_stop_leaks_driver :
  let imgs := [Element (Some "http://a"); Element (Some "http://b")] in
  let start := yandex_images_batch_generator in
  (exists (g : gen) (w : world),
      gen_next (sample_env true) (sample_chrome imgs) "beer" "out" 1 5
        start empty_world
      = Some (Yield ["out/uuid0_http://a.png"], g, w)
      /\ at_pc (gen_close g) = Finished
      /\ driver_leaked (gen_close g))
  /\ (exists (g : gen) (w : world),
         gen_all (sample_env true)
           (fun _ => Browser (Dom imgs) [DriverError]) "beer" "out" 1 9
           start empty_world
         = Some ([["out/uuid0_http://a.png"]; ["out/uuid1_http://b.png"]], false,
                 g, w)
         /\ at_pc g = Finished
         /\ driver_leaked g)
  /\ (exists (g : gen) (w : world),
         gen_all (sample_env true) (sample_chrome imgs) "beer" "out" 1 9
           start empty_world
         = Some ([["out/uuid0_http://a.png"]; ["out/uuid1_http://b.png"]], true,
                 g, w)
         /\ driver_quit g = true).
Proof.
  cbv zeta. split; [|split].
  - eexists _, _. split; [vm_compute; reflexivity|].
    split; [reflexivity|]. split; [eexists; reflexivity | reflexivity].
  - eexists _, _. split; [vm_compute; reflexivity|].
    split; [reflexivity|]. split; [eexists; reflexivity | reflexivity].
  - eexists _, _. split; [vm_compute; reflexivity|]. reflexivity.
Qed.

(** ** Batches *)

Section Chunks.

Variable k : nat.
Hypothesis k_pos : (0 < k)%nat.

Lemma chunks_upto_enough (f1 f2 : nat) (items : list string) :
  (length items <= f1)%nat -> (length items <= f2)%nat ->
  chunks_upto f1 k items = chunks_upto f2 k items.
Proof.
  revert f2 items. induction f1 as [|f1 IH]; intros f2 items H1 H2.
  - destruct items; [|simpl in H1; lia]. destruct f2; reflexivity.
  - destruct items as [|x items]; [destruct f2; reflexivity|].
    destruct f2 as [|f2]; [simpl in H2; lia|].
    cbn [chunks_upto]. f_equal.
    apply IH; rewrite length_drop; simpl in *; lia.
Qed.

Lemma chunks_nil : chunks k [] = [].
Proof. reflexivity. Qed.

Lemma chunks_short (items : list string) :
  (0 < length items <= k)%nat -> chunks k items = [items].
Proof.
  intros Hlen. unfold chunks.
  destruct items as [|x items]; [simpl in Hlen; lia|].
  cbn [length chunks_upto].
  rewrite take_ge, drop_ge by lia.
  destruct (length items); reflexivity.
Qed.

Lemma chunks_full (b rest : list string) :
  length b = k -> chunks k (b ++ rest) = b :: chunks k rest.
Proof.
  intros Hb. unfold chunks.
  destruct (b ++ rest) as [|x l] eqn:Hl.
  - apply (f_equal length) in Hl. rewrite length_app in Hl. simpl in Hl. lia.
  - cbn [length chunks_upto]. rewrite <- Hl.
    rewrite take_app_length', drop_app_length' by (symmetry; exact Hb).
    f_equal. apply chunks_upto_enough; [|lia].
    apply (f_equal length) in Hl. rewrite length_app in Hl. simpl in Hl. lia.
Qed.

(** Induction along the runs of [chunks]. *)
Lemma chunks_ind (P : list string -> list (list string) -> Prop) :
  P [] [] ->
  (forall items, (0 < length items <= k)%nat -> P items [items]) ->
  (forall b rest,
      length b = k -> (0 < length rest)%nat -> P rest (chunks k rest) ->
      P (b ++ rest) (b :: chunks k rest)) ->
  forall items, P items (chunks k items).
Proof.
  intros Hnil Hshort Hfull items.
  remember (length items) as n eqn:Hn. revert items Hn.
  induction n as [n IH] using lt_wf_ind. intros items Hn.
  destruct (decide (length items = 0%nat)) as [Hz | Hnz].
  - destruct items; [exact Hnil | discriminate].
  - destruct (decide (length items <= k)%nat) as [Hle | Hgt].
    + rewrite chunks_short by lia. apply Hshort. lia.
    + rewrite <- (take_drop k items).
      assert (Hb : length (take k items) = k) by (rewrite length_take; lia).
      rewrite chunks_full by exact Hb.
      apply Hfull; [exact Hb | rewrite length_drop; lia |].
      apply (IH (length (drop k items))); [|reflexivity].
      rewrite length_drop. lia.
Qed.

Lemma chunks_concat (items : list string) : concat (chunks k items) = items.
Proof.
  apply (chunks_ind (fun items bs => concat bs = items)).
  - reflexivity.
  - intros l _. simpl. apply app_nil_r.
  - intros b rest _ _ IH. simpl. by rewrite IH.
Qed.

Lemma ceil_div_short (n : nat) : (0 < n <= k)%nat -> ceil_div n k = 1%nat.
Proof.
  intros Hn. unfold ceil_div. symmetry.
  apply (Nat.div_unique _ _ _ (n - 1)); lia.
Qed.

Lemma ceil_div_add (n : nat) : ceil_div (k + n) k = S (ceil_div n k).
Proof.
  unfold ceil_div.
  replace (k + n + k - 1)%nat with (1 * k + (n + k - 1))%nat by lia.
  rewrite Nat.div_add_l by lia. reflexivity.
Qed.

Lemma chunks_length (items : list string) :
  length (chunks k items) = ceil_div (length items) k.
Proof.
  apply (chunks_ind (fun items bs => length bs = ceil_div (length items) k)).
  - unfold ceil_div. simpl. symmetry. apply Nat.div_small. lia.
  - intros l Hl. simpl. symmetry. by apply ceil_div_short.
  - intros b rest Hb _ IH. simpl.
    rewrite length_app, Hb, ceil_div_add, IH. reflexivity.
Qed.

(** Every run but the last has [k] items. *)
Lemma chunks_inner_full (items : list string) (i : nat) (b : list string) :
  chunks k items !! i = Some b -> (S i < length (chunks k items))%nat ->
  length b = k.
Proof.
  revert i.
  apply (chunks_ind (fun items bs => forall i, bs !! i = Some b ->
                                     (S i < length bs)%nat -> length b = k)).
  - intros i Hi. discriminate.
  - intros l _ i _ Hlen. simpl in Hlen. lia.
  - intros b0 rest Hb _ IH [|i] Hi Hlen; simpl in *.
    + congruence.
    + apply (IH i Hi). lia.
Qed.

(** The last run holds what is left: [k] items when [k] divides the
    number of items, the remainder otherwise. *)
Lemma chunks_last (items : list string) (b : list string) :
  last (chunks k items) = Some b ->
  (0 < length b <= k)%nat
  /\ length b = (if Nat.eqb (length items mod k) 0 then k
                 else length items mod k).
Proof.
  apply (chunks_ind (fun items bs =>
           last bs = Some b ->
           (0 < length b <= k)%nat
           /\ length b = (if Nat.eqb (length items mod k) 0 then k
                          else length items mod k))).
  - discriminate.
  - intros l Hl Hlast. simpl in Hlast. injection Hlast as ->.
    split; [exact Hl|].
    destruct (decide (length b = k)) as [-> | Hne].
    + rewrite Nat.Div0.mod_same. reflexivity.
    + rewrite Nat.mod_small by lia.
      destruct (Nat.eqb_spec (length b) 0); [lia | reflexivity].
  - intros b0 rest Hb Hrest IH Hlast.
    assert (Hne : chunks k rest <> []).
    { intros Hnil. pose proof (chunks_concat rest) as Hc.
      rewrite Hnil in Hc. simpl in Hc. subst rest. simpl in Hrest. lia. }
    destruct (chunks k rest) as [|c cs] eqn:Hcs; [done|].
    rewrite last_cons_cons in Hlast.
    rewrite length_app, Hb.
    replace ((k + length rest) mod k)%nat with (length rest mod k)%nat.
    + apply IH, Hlast.
    + rewrite Nat.add_comm.
      replace (length rest + k)%nat with (length rest + 1 * k)%nat by lia.
      by rewrite Nat.Div0.mod_add.
Qed.

End Chunks.

(** ** The batch generator on a good source *)

Section BatchRun.

Variable E : env.
Variable chrome : string -> browser.
Variables (prompt output_dir : string) (k : nat) (urls : list string).
Hypothesis k_pos : (0 < k)%nat.
Hypothesis urls_valid : Forall (fun u => skip_url (Some u) = false) urls.
Hypothesis urls_fetch :
  Forall (fun u => exists c, requests_get E u = Response 200 c) urls.
Hypothesis urls_unique : NoDup (map (fingerprint_of E) urls).
Hypothesis disk_ok : forall p : string, can_write E p = true.

Lemma gen_all_S (fuel : nat) (g : gen) (w : world) :
  gen_all E chrome prompt output_dir k (S fuel) g w
  = after_step E chrome prompt output_dir k fuel
      (step E chrome prompt output_dir k g w).
Proof.
  simpl. unfold after_step.
  destruct (step E chrome prompt output_dir k g w) as [[[] ?] ?]; reflexivity.
Qed.

Lemma reveals_prefix (shown : list element) (more : list dom) :
  reveals (candidates urls) shown more -> shown `prefix_of` (candidates urls).
Proof.
  induction 1 as [|shown next rest Hpre _ _ IH]; [reflexivity|].
  etrans; [exact Hpre | exact IH].
Qed.

Lemma candidates_lookup (i : nat) (u : string) :
  urls !! i = Some u -> candidates urls !! i = Some (Element (Some u)).
Proof.
  unfold candidates. revert i.
  induction urls as [|x l IH]; intros [|i] Hi;
    simpl in *; try discriminate.
  - congruence.
  - apply IH; [by inversion urls_valid | by inversion urls_fetch
              | by inversion urls_unique | exact Hi].
Qed.

Lemma candidates_length : length (candidates urls) = length urls.
Proof. unfold candidates. apply length_map. Qed.

(** The fetch of the candidate at index [i] when the set holds fingerprints
    of earlier candidates only. *)
Lemma download_candidate (i : nat) (u : string) (dedup : gset string)
    (w : world) :
  urls !! i = Some u ->
  (forall x, x ∈ dedup -> x ∈ map (fingerprint_of E) (take i urls)) ->
  download_image E u output_dir dedup w
  = (Some (os_path_join E output_dir
             (uuid4_hex E (uuid_drawn w) +:+ "_" +:+ fingerprint_of E u
              +:+ ".png")),
     {[fingerprint_of E u]} ∪ dedup,
     write_file
       (os_path_join E output_dir
          (uuid4_hex E (uuid_drawn w) +:+ "_" +:+ fingerprint_of E u
           +:+ ".png"))
       (Bytes (body_of E u)) (draw_uuid w)).
Proof.
  intros Hu Hded.
  assert (Hin : u ∈ urls) by (apply list_elem_of_lookup; eauto).
  rewrite Forall_forall in urls_fetch.
  destruct (urls_fetch u Hin) as (c & Hget).
  assert (Hbody : body_of E u = c) by (unfold body_of; by rewrite Hget).
  assert (Hfp : fingerprint_of E u = md5_hexdigest E c)
    by (unfold fingerprint_of; by rewrite Hbody).
  assert (Hnew : md5_hexdigest E c ∉ dedup).
  { intros Hseen. apply Hded in Hseen. rewrite <- Hfp in Hseen.
    rewrite <- (take_drop i urls) in urls_unique.
    rewrite map_app in urls_unique.
    apply NoDup_app in urls_unique as (_ & Hdisj & _).
    apply (Hdisj _ Hseen).
    rewrite (drop_S _ _ _ Hu). simpl. left. }
  rewrite (download_image_fresh E output_dir u c dedup w Hget Hnew).
  rewrite disk_ok. unfold target_path. rewrite Hfp, Hbody. reflexivity.
Qed.

(** One iteration on the candidate at index [i], then the rest of the run:
    from the loop head with [b] in the batch, the generator yields the runs
    of [k] of [b] followed by the paths of the candidates from [i] on. *)
Lemma run_from_loop_head (rem : nat) :
  forall (i : nat) (br : browser) (shown : list element)
         (dedup : gset string) (b : list string) (w : world) (fuel : nat),
    rem = (length urls - i)%nat ->
    (i <= length shown)%nat ->
    page br = Dom shown ->
    reveals (candidates urls) shown (scrolls br) ->
    (forall x, x ∈ dedup -> x ∈ map (fingerprint_of E) (take i urls)) ->
    (length b < k)%nat ->
    (2 * rem + 2 <= fuel)%nat ->
    exists (g' : gen) (w' : world),
      gen_all E chrome prompt output_dir k fuel
        (Gen LoopHead (Some br) false dedup shown i b) w
      = Some (chunks k (b ++ saved_paths E output_dir (uuid_drawn w)
                              (drop i urls)),
              true, g', w').
Proof.
  induction rem as [|rem IH];
    intros i br shown dedup b w fuel Hrem Hi Hpage Hrev Hded Hb Hfuel.
  - (* nothing is left: the page may not grow any more *)
    pose proof (reveals_prefix shown _ Hrev) as Hpre.
    pose proof (prefix_length _ _ Hpre) as Hlen. rewrite candidates_length in Hlen.
    assert (Hi' : i = length shown) by lia.
    assert (Hall : length shown = length urls) by lia.
    destruct fuel as [|fuel]; [lia|]. rewrite gen_all_S.
    unfold step. cbn [at_pc driver images idx batch dedup_set driver_quit].
    destruct (Nat.leb_spec (length shown) i) as [_|]; [|lia].
    inversion Hrev as [Hshown Hmore | shown' next rest _ Hgrow Hrev' Hshown Hmore].
    2:{ pose proof (reveals_prefix next _ Hrev') as Hpre'.
        apply prefix_length in Hpre'. rewrite candidates_length in Hpre'. lia. }
    unfold scroll_to_bottom. rewrite <- Hmore.
    unfold find_elements. rewrite Hpage.
    destruct (Nat.leb_spec (length shown) i) as [_|]; [|lia].
    rewrite drop_ge by lia. simpl saved_paths. rewrite app_nil_r.
    unfold after_loop. cbn [batch driver images idx dedup_set driver_quit].
    destruct b as [|x b].
    + simpl. eexists _, _. reflexivity.
    + cbn [after_step]. destruct fuel as [|fuel]; [lia|].
      rewrite gen_all_S. unfold step. cbn [at_pc after_step].
      rewrite chunks_short by (simpl in *; lia).
      eexists _, _. reflexivity.
  - (* the candidate at index [i], on the page shown or after a scroll *)
    assert (Hlt : (i < length urls)%nat) by lia.
    destruct (lookup_lt_is_Some_2 urls i Hlt) as (u & Hu).
    assert (Hbody : forall br1 imgs,
               page br1 = Dom imgs ->
               reveals (candidates urls) imgs (scrolls br1) ->
               (i < length imgs)%nat ->
               forall fuel1, (2 * rem + 3 <= fuel1)%nat ->
               exists g' w',
                 after_step E chrome prompt output_dir k fuel1
                   (loop_body E output_dir k
                      (Gen LoopHead (Some br) false dedup shown i b)
                      br1 imgs w)
                 = Some (chunks k (b ++ saved_paths E output_dir
                                          (uuid_drawn w) (drop i urls)),
                         true, g', w')).
    { intros br1 imgs Hpage1 Hrev1 Hi1 fuel1 Hfuel1.
      pose proof (reveals_prefix imgs _ Hrev1) as Hpre1.
      unfold loop_body. cbn [idx batch dedup_set driver_quit].
      rewrite (prefix_lookup_lt _ _ _ Hi1 Hpre1), (candidates_lookup i u Hu).
      assert (Hin : u ∈ urls) by (apply list_elem_of_lookup; eauto).
      pose proof urls_valid as Hvalid. rewrite Forall_forall in Hvalid.
      rewrite (Hvalid u Hin). change (default "" (Some u)) with u.
      rewrite (download_candidate i u dedup w Hu Hded).
      rewrite (drop_S _ _ _ Hu). cbn [saved_paths].
      set (p := os_path_join E output_dir _).
      set (w1 := write_file p _ _).
      assert (Hded1 : forall x, x ∈ {[fingerprint_of E u]} ∪ dedup ->
                                x ∈ map (fingerprint_of E) (take (S i) urls)).
      { intros x Hx. rewrite (take_S_r _ _ _ Hu), map_app.
        apply elem_of_app. apply elem_of_union in Hx as [Hx | Hx].
        - right. apply elem_of_singleton in Hx as ->. simpl. left.
        - left. apply Hded, Hx. }
      destruct (Nat.eqb_spec (length (b ++ [p])) k) as [Hfull | Hpart].
      - cbn [after_step]. destruct fuel1 as [|fuel1]; [lia|].
        rewrite gen_all_S. unfold step at 1. cbn [at_pc after_step].
        cbn [driver driver_quit dedup_set images idx].
        destruct (IH (S i) br1 imgs ({[fingerprint_of E u]} ∪ dedup) [] w1
                    fuel1) as (g' & w' & Hrun);
          [lia | lia | exact Hpage1 | exact Hrev1 | exact Hded1
          | simpl; lia | lia |].
        rewrite Hrun. simpl app.
        replace (b ++ p :: saved_paths E output_dir (S (uuid_drawn w))
                          (drop (S i) urls))
          with ((b ++ [p]) ++ saved_paths E output_dir (S (uuid_drawn w))
                                (drop (S i) urls))
          by (rewrite <- app_assoc; reflexivity).
        rewrite (chunks_full k k_pos _ _ Hfull).
        eexists _, _. reflexivity.
      - cbn [after_step].
        destruct (IH (S i) br1 imgs ({[fingerprint_of E u]} ∪ dedup)
                    (b ++ [p]) w1 fuel1) as (g' & w' & Hrun);
          [lia | lia | exact Hpage1 | exact Hrev1 | exact Hded1
          | rewrite length_app in *; simpl in *; lia | lia |].
        rewrite Hrun. rewrite <- app_assoc. simpl app.
        eexists _, _. reflexivity. }
    destruct fuel as [|fuel]; [lia|]. rewrite gen_all_S.
    unfold step. cbn [at_pc driver images idx batch dedup_set driver_quit].
    destruct (Nat.leb_spec (length shown) i) as [Hend | Hin].
    + assert (Hi' : i = length shown) by lia.
      inversion Hrev as [Hshown Hmore
                        | shown' next rest _ Hgrow Hrev' Hshown Hmore].
      { apply (f_equal length) in Hshown. rewrite candidates_length in Hshown. lia. }
      unfold scroll_to_bottom. rewrite <- Hmore.
      unfold find_elements. cbn [page].
      destruct (Nat.leb_spec (length next) i) as [|_]; [lia|].
      apply (Hbody (Browser (Dom next) rest) next);
        [reflexivity | exact Hrev' | lia | lia].
    + apply (Hbody br shown); [exact Hpage | exact Hrev | lia | lia].
Qed.

End BatchRun.

Lemma saved_paths_length (E : env) (output_dir : string) (n : nat)
    (urls : list string) :
  length (saved_paths E output_dir n urls) = length urls.
Proof.
  revert n. induction urls as [|u urls IH]; intros n; simpl; [reflexivity|].
  by rewrite IH.
Qed.

(** C5: on a source of [N] valid, unique, fetch-succeeding candidates and
    with a batch size [k > 0], the generator pulled to its end (any fuel
    from [2 N + 3] on is enough) stops by [StopIteration] having yielded
    the saved paths of the candidates, in discovery order, cut into runs of
    [k]: [ceil(N / k)] batches, [N] items in all, every batch but the last
    of size exactly [k], and the last one holding what is left. *)
Theorem harvester_batch_sizing (E : env) (chrome : string -> browser)
    (prompt output_dir : string) (k : nat) (urls : list string)
    (w0 : world) (fuel : nat) :
  (0 < k)%nat ->
  good_source E chrome prompt urls ->
  (2 * length urls + 3 <= fuel)%nat ->
  exists (batches : list (list string)) (g : gen) (w : world),
    gen_all E chrome prompt output_dir k fuel yandex_images_batch_generator w0
    = Some (batches, true, g, w)
    /\ batches = chunks k (saved_paths E output_dir (uuid_drawn w0) urls)
    /\ concat batches = saved_paths E output_dir (uuid_drawn w0) urls
    /\ length (concat batches) = length urls
    /\ length batches = ceil_div (length urls) k
    /\ (forall (i : nat) (b : list string),
           batches !! i = Some b -> (S i < length batches)%nat ->
           length b = k)
    /\ (forall b : list string,
           last batches = Some b ->
           (0 < length b <= k)%nat
           /\ length b = (if Nat.eqb (length urls mod k) 0 then k
                          else length urls mod k))
    /\ driver_quit g = true.
Proof.
  intros Hk [(shown & more & Hchrome & Hrev) Hvalid Hfetch Huniq Hdisk] Hfuel.
  destruct fuel as [|fuel]; [lia|].
  assert (Hrun : exists g w,
             gen_all E chrome prompt output_dir k (S fuel)
               yandex_images_batch_generator w0
             = Some (chunks k (saved_paths E output_dir (uuid_drawn w0) urls),
                     true, g, w)).
  { rewrite gen_all_S. unfold step, yandex_images_batch_generator.
    cbn [at_pc]. rewrite Hchrome. unfold find_elements. cbn [page after_step].
    destruct (run_from_loop_head E chrome prompt output_dir k urls Hk Hvalid
                Hfetch Huniq Hdisk (length urls) 0%nat (Browser (Dom shown) more)
                shown ∅ [] (makedirs output_dir w0) fuel)
      as (g & w & Hrun);
      [lia | lia | reflexivity | exact Hrev
      | intros x Hx; by apply not_elem_of_empty in Hx | simpl; lia | lia |].
    exists g, w. exact Hrun. }
  destruct Hrun as (g & w & Hrun).
  exists (chunks k (saved_paths E output_dir (uuid_drawn w0) urls)), g, w.
  split; [exact Hrun|]. split; [reflexivity|].
  split; [by apply chunks_concat|].
  split; [by rewrite chunks_concat, saved_paths_length|].
  split; [by rewrite chunks_length, saved_paths_length|].
  split; [intros i b; by apply chunks_inner_full|].
  split.
  - intros b Hlast.
    rewrite <- (saved_paths_length E output_dir (uuid_drawn w0) urls).
    by apply chunks_last.
  - eapply gen_all_exhausted_quits; [|exact Hrun]. discriminate.
Qed.

Lemma harvester_batch_sizing_witness :
  exists (batches : list (list string)) (g : gen) (w : world),
    gen_all (sample_env true)
      (fun _ =>
         Browser (Dom [Element (Some "http://a")])
           [Dom [Element (Some "http://a"); Element (Some "http://b");
                 Element (Some "http://c")]])
      "beer" "out" 2 9 yandex_images_batch_generator empty_world
    = Some (batches, true, g, w)
    /\ batches
       = chunks 2
           (saved_paths (sample_env true) "out" (uuid_drawn empty_world)
              ["http://a"; "http://b"; "http://c"])
    /\ concat batches
       = saved_paths (sample_env true) "out" (uuid_drawn empty_world)
           ["http://a"; "http://b"; "http://c"]
    /\ length (concat batches) = 3%nat
    /\ length batches = ceil_div 3 2
    /\ (forall (i : nat) (b : list string),
           batches !! i = Some b -> (S i < length batches)%nat ->
           length b = 2%nat)
    /\ (forall b : list string,
           last batches = Some b ->
           (0 < length b <= 2)%nat
           /\ length b = (if Nat.eqb (3 mod 2) 0 then 2%nat else (3 mod 2)%nat))
    /\ driver_quit g = true.
Proof.
  apply (harvester_batch_sizing (sample_env true) _ "beer" "out" 2
           ["http://a"; "http://b"; "http://c"] empty_world 9).
  - lia.
  - split.
    + eexists _, _. split; [reflexivity|].
      apply reveals_more; [by eexists | simpl; lia | apply reveals_all].
    + repeat constructor.
    + repeat constructor; eexists; reflexivity.
    + apply (bool_decide_unpack _). vm_compute. exact I.
    + reflexivity.
  - simpl. lia.
Defined.

(** * Further properties of the notebook *)

(** ** Stage A on degenerate boxes *)

(** A box of zero width never passes the aspect-ratio filter, whatever the
    bounds: the division by zero gives [inf], [-inf] or [nan], and none of
    them lies strictly between two numbers. *)
Theorem filter_by_constrain_zero_width (bboxes : list bbox) (low high : Q)
    (b : bbox) :
  bw b == 0 ->
  b ∉ filter_by_constrain bboxes (low, high) bbox_ratio.
Proof.
  intros Hz Hin. apply filter_by_constrain_elem in Hin as (_ & Hnz & _).
  contradiction.
Qed.

Lemma filter_by_constrain_zero_width_witness :
  Bbox 3 4 0 7 ∉ filter_by_constrain
                   [Bbox 0 0 10 20; Bbox 3 4 0 7; Bbox 1 1 0 0]
                   default_constrain bbox_ratio.
Proof.
  apply (filter_by_constrain_zero_width _ (3 # 2) 5 (Bbox 3 4 0 7)).
  reflexivity.
Defined.

(** ** Stage B: what is discarded and what is not *)

Section DiscardCause.

Variables (bboxes : list bbox) (threshold : Q).

Lemma pair_step_length (i j : nat) (keep : list bool) :
  length (pair_step bboxes threshold i j keep) = length keep.
Proof.
  unfold pair_step.
  repeat match goal with
         | |- context [match ?x with _ => _ end] => destruct x
         end; rewrite ?length_insert; reflexivity.
Qed.

Lemma pair_step_discard_cause (i j k : nat) (keep : list bool) :
  pair_step bboxes threshold i j keep !! k = Some false ->
  keep !! k = Some false \/ has_suppressor bboxes threshold k.
Proof.
  unfold pair_step.
  destruct (bboxes !! i) as [b_i|] eqn:Hbi; [|auto].
  destruct (bboxes !! j) as [b_j|] eqn:Hbj; [|auto].
  destruct (keep !! i) as [ki|]; [|auto].
  destruct (keep !! j) as [kj|]; [|auto].
  destruct (Nat.eqb i j) eqn:Hij; [auto|]. apply Nat.eqb_neq in Hij.
  destruct (_ || _); [auto|]. cbv zeta.
  destruct (Qltb (bbox_area b_i) (bbox_area b_j)) eqn:Hlt.
  - destruct (np_ge _ threshold) eqn:Hge; [|auto].
    intros Hk. apply list_lookup_insert_Some in Hk as [(<- & _ & _) | [_ Hk]];
      [|auto].
    right. exists j, b_i, b_j. apply Qltb_lt in Hlt.
    repeat split; auto.
  - destruct (Qltb (bbox_area b_j) (bbox_area b_i)) eqn:Hgt; [|auto].
    destruct (np_ge _ threshold) eqn:Hge; [|auto].
    intros Hk. apply list_lookup_insert_Some in Hk as [(<- & _ & _) | [_ Hk]];
      [|auto].
    right. exists i, b_j, b_i. apply Qltb_lt in Hgt.
    repeat split; auto.
Qed.

Lemma inner_loop_discard_cause (i k : nat) (js : list nat)
    (keep : list bool) :
  inner_loop bboxes threshold i js keep !! k = Some false ->
  keep !! k = Some false \/ has_suppressor bboxes threshold k.
Proof.
  unfold inner_loop. revert keep.
  induction js as [|j js IH]; intros keep Hk; simpl in *; [auto|].
  destruct (IH _ Hk) as [Hk' | Hc]; [|auto].
  exact (pair_step_discard_cause i j k keep Hk').
Qed.

Lemma outer_loop_discard_cause (k : nat) (is_ : list nat)
    (keep : list bool) :
  outer_loop bboxes threshold is_ keep !! k = Some false ->
  keep !! k = Some false \/ has_suppressor bboxes threshold k.
Proof.
  unfold outer_loop. revert keep.
  induction is_ as [|i is_ IH]; intros keep Hk; simpl in *; [auto|].
  destruct (IH _ Hk) as [Hk' | Hc]; [|auto].
  exact (inner_loop_discard_cause i k _ keep Hk').
Qed.

Lemma inner_loop_length (i : nat) (js : list nat) (keep : list bool) :
  length (inner_loop bboxes threshold i js keep) = length keep.
Proof.
  unfold inner_loop. revert keep.
  induction js as [|j js IH]; intros keep; simpl; [reflexivity|].
  rewrite IH. apply pair_step_length.
Qed.

Lemma outer_loop_length (is_ : list nat) (keep : list bool) :
  length (outer_loop bboxes threshold is_ keep) = length keep.
Proof.
  unfold outer_loop. revert keep.
  induction is_ as [|i is_ IH]; intros keep; simpl; [reflexivity|].
  rewrite IH. apply inner_loop_length.
Qed.

(** The mask has the length of the array, as boolean indexing needs. *)
Lemma final_keep_length :
  length (final_keep bboxes threshold) = length bboxes.
Proof.
  unfold final_keep. rewrite outer_loop_length. apply length_replicate.
Qed.

Lemma final_keep_discard_cause (k : nat) :
  final_keep bboxes threshold !! k = Some false -> has_suppressor bboxes threshold k.
Proof.
  intros Hk. unfold final_keep in Hk.
  destruct (outer_loop_discard_cause k _ _ Hk) as [Hinit | Hc]; [|exact Hc].
  apply lookup_replicate in Hinit as [? _]. discriminate.
Qed.

(** A region that no region of the list can suppress is kept. *)
Lemma final_keep_safe (k : nat) (b_k : bbox) :
  bboxes !! k = Some b_k ->
  (forall b : bbox, b ∈ bboxes -> ~ suppressible threshold b_k b) ->
  final_keep bboxes threshold !! k = Some true.
Proof.
  intros Hbk Hsafe.
  assert (Hlt : (k < length (final_keep bboxes threshold))%nat).
  { rewrite final_keep_length. eapply lookup_lt_Some, Hbk. }
  destruct (lookup_lt_is_Some_2 _ _ Hlt) as ([|] & Hk); [exact Hk|].
  exfalso. destruct (final_keep_discard_cause k Hk)
    as (m & b_k' & b_m & _ & Hbk' & Hbm & Hsup).
  rewrite Hbk in Hbk'. injection Hbk' as <-.
  apply (Hsafe b_m); [|exact Hsup].
  apply list_elem_of_lookup. eauto.
Qed.

End DiscardCause.

Lemma np_select_all {A : Type} (a : list A) :
  np_select a (replicate (length a) true) = a.
Proof. induction a as [|x a IH]; simpl; [reflexivity | by rewrite IH]. Qed.

Lemma suppress_keeps_safe (bboxes : list bbox) (threshold : Q) (b : bbox) :
  b ∈ bboxes ->
  (forall b' : bbox, b' ∈ bboxes -> ~ suppressible threshold b b') ->
  b ∈ suppress_inside_bboxes bboxes threshold.
Proof.
  intros Hin Hsafe. apply list_elem_of_lookup in Hin as (k & Hk).
  apply np_select_elem. exists k. split; [exact Hk|].
  by apply (final_keep_safe bboxes threshold k b).
Qed.

Lemma suppress_identity_when_safe (bboxes : list bbox) (threshold : Q) :
  (forall b1 b2 : bbox,
      b1 ∈ bboxes -> b2 ∈ bboxes -> ~ suppressible threshold b1 b2) ->
  suppress_inside_bboxes bboxes threshold = bboxes.
Proof.
  intros Hsafe. unfold suppress_inside_bboxes.
  assert (Hall : final_keep bboxes threshold
                 = replicate (length bboxes) true).
  { apply list_eq. intros k.
    destruct (bboxes !! k) as [b_k|] eqn:Hk.
    - rewrite (final_keep_safe bboxes threshold k b_k Hk).
      + symmetry. apply lookup_replicate. split; [reflexivity|].
        eapply lookup_lt_Some, Hk.
      + intros b Hb. apply Hsafe; [|exact Hb].
        apply list_elem_of_lookup. eauto.
    - apply lookup_ge_None in Hk.
      rewrite (lookup_ge_None_2 (final_keep bboxes threshold))
        by (rewrite final_keep_length; exact Hk).
      symmetry. apply lookup_ge_None_2. rewrite length_replicate. exact Hk. }
  rewrite Hall. apply np_select_all.
Qed.

Lemma suppress_survivors_safe (bboxes : list bbox) (threshold : Q)
    (b1 b2 : bbox) :
  b1 ∈ suppress_inside_bboxes bboxes threshold ->
  b2 ∈ suppress_inside_bboxes bboxes threshold ->
  ~ suppressible threshold b1 b2.
Proof.
  unfold suppress_inside_bboxes. intros H1 H2 (Hlt & Hge).
  apply np_select_elem in H1 as (p & Hbp & Hkp).
  apply np_select_elem in H2 as (q & Hbq & Hkq).
  destruct (final_keep_no_overlap bboxes threshold p q b1 b2
              Hbp Hbq Hkp Hkq Hlt) as (Hn1 & Hn2).
  destruct Hge; congruence.
Qed.


(** A box is discarded only for a reason: a box that no box of the list
    can suppress (none is strictly larger and covers the threshold
    fraction of it) is in the output. *)
Theorem suppress_keeps_unsuppressible (bboxes : list bbox) (threshold : Q)
    (b : bbox) :
  b ∈ bboxes ->
  (forall b' : bbox, b' ∈ bboxes -> ~ suppressible threshold b b') ->
  b ∈ suppress_inside_bboxes bboxes threshold.
Proof. apply suppress_keeps_safe. Qed.

Lemma suppress_keeps_unsuppressible_witness :
  Bbox 8 8 5 5
  ∈ suppress_inside_bboxes [Bbox 0 0 10 10; Bbox 8 8 5 5] default_threshold.
Proof.
  apply (suppress_keeps_unsuppressible _ _ (Bbox 8 8 5 5)).
  - right. left.
  - intros b' Hb' (Hlt & Hge).
    apply elem_of_cons in Hb' as [-> | Hb'].
    + destruct Hge as [Hge | Hge]; vm_compute in Hge; discriminate.
    + apply list_elem_of_singleton in Hb' as ->.
      vm_compute in Hlt. discriminate.
Defined.



(** When no box of the list can suppress another, the pass returns the
    list as it is; so it does for boxes that all have the same area,
    however much they overlap. *)
Theorem suppress_identity (bboxes : list bbox) (threshold : Q) :
  ((forall b1 b2 : bbox,
       b1 ∈ bboxes -> b2 ∈ bboxes -> ~ suppressible threshold b1 b2) ->
   suppress_inside_bboxes bboxes threshold = bboxes)
  /\ ((forall b1 b2 : bbox,
          b1 ∈ bboxes -> b2 ∈ bboxes -> bbox_area b1 == bbox_area b2) ->
      suppress_inside_bboxes bboxes threshold = bboxes).
Proof.
  split; [apply suppress_identity_when_safe|].
  intros Heq. apply suppress_identity_when_safe.
  intros b1 b2 H1 H2 (Hlt & _). specialize (Heq b1 b2 H1 H2). lra.
Qed.

Lemma suppress_identity_witness :
  suppress_inside_bboxes [Bbox 0 0 10 10; Bbox 1 1 10 10; Bbox 0 0 20 5]
    default_threshold
  = [Bbox 0 0 10 10; Bbox 1 1 10 10; Bbox 0 0 20 5].
Proof.
  apply (suppress_identity [Bbox 0 0 10 10; Bbox 1 1 10 10; Bbox 0 0 20 5]).
  intros b1 b2 H1 H2.
  repeat (apply elem_of_cons in H1 as [-> | H1]);
    repeat (apply elem_of_cons in H2 as [-> | H2]);
    try (by apply not_elem_of_nil in H1); try (by apply not_elem_of_nil in H2);
    reflexivity.
Defined.

(** Running the pass on its own output changes nothing. *)
Theorem suppress_idempotent (bboxes : list bbox) (threshold : Q) :
  suppress_inside_bboxes (suppress_inside_bboxes bboxes threshold) threshold
  = suppress_inside_bboxes bboxes threshold.
Proof.
  apply suppress_identity_when_safe. intros b1 b2.
  apply suppress_survivors_safe.
Qed.

(** The intersection of two boxes of nonnegative sizes is a part of each. *)
Lemma intersection_area_bounds (b1 b2 : bbox) :
  nonneg_size b1 -> nonneg_size b2 ->
  0 <= intersection_area b1 b2
  /\ intersection_area b1 b2 <= bbox_area b1
  /\ intersection_area b1 b2 <= bbox_area b2.
Proof.
  intros [Hw1 Hh1] [Hw2 Hh2]. unfold intersection_area, bbox_area. cbv zeta.
  assert (Ha1 : 0 <= bw b1 * bh b1) by (apply Qmult_le_0_compat; assumption).
  assert (Ha2 : 0 <= bw b2 * bh b2) by (apply Qmult_le_0_compat; assumption).
  destruct (Qle_bool _ _ || Qle_bool _ _) eqn:Hb; [lra|].
  apply orb_false_iff in Hb as [Hx Hy].
  assert (Hx' : Qmax (bx b1) (bx b2)
                < Qmin (bx b1 + bw b1) (bx b2 + bw b2)).
  { apply Qnot_le_lt. intros H. apply Qle_bool_iff in H. congruence. }
  assert (Hy' : Qmax (by_ b1) (by_ b2)
                < Qmin (by_ b1 + bh b1) (by_ b2 + bh b2)).
  { apply Qnot_le_lt. intros H. apply Qle_bool_iff in H. congruence. }
  clear Hx Hy.
  set (dx := Qmin (bx b1 + bw b1) (bx b2 + bw b2) - Qmax (bx b1) (bx b2)).
  set (dy := Qmin (by_ b1 + bh b1) (by_ b2 + bh b2) - Qmax (by_ b1) (by_ b2)).
  assert (Hdx : 0 < dx /\ dx <= bw b1 /\ dx <= bw b2).
  { unfold dx.
    pose proof (Q.le_max_l (bx b1) (bx b2)).
    pose proof (Q.le_max_r (bx b1) (bx b2)).
    pose proof (Q.le_min_l (bx b1 + bw b1) (bx b2 + bw b2)).
    pose proof (Q.le_min_r (bx b1 + bw b1) (bx b2 + bw b2)).
    repeat split; lra. }
  assert (Hdy : 0 < dy /\ dy <= bh b1 /\ dy <= bh b2).
  { unfold dy.
    pose proof (Q.le_max_l (by_ b1) (by_ b2)).
    pose proof (Q.le_max_r (by_ b1) (by_ b2)).
    pose proof (Q.le_min_l (by_ b1 + bh b1) (by_ b2 + bh b2)).
    pose proof (Q.le_min_r (by_ b1 + bh b1) (by_ b2 + bh b2)).
    repeat split; lra. }
  destruct Hdx as (? & ? & ?), Hdy as (? & ? & ?).
  repeat split.
  - apply Qmult_le_0_compat; lra.
  - apply Qmult_le_compat_nonneg; split; lra.
  - apply Qmult_le_compat_nonneg; split; lra.
Qed.

(** No quotient intersection / area reaches a threshold above 1. *)
Lemma np_ge_fraction_above_one (inter area threshold : Q) :
  0 <= inter -> inter <= area -> 1 < threshold ->
  np_ge (np_div inter area) threshold = false.
Proof.
  intros H0 Hle Ht.
  destruct (Qlt_le_dec 0 area) as [Hpos | Hnp].
  - destruct (np_ge (np_div inter area) threshold) eqn:Hge; [|reflexivity].
    apply np_ge_div_pos in Hge; [|exact Hpos].
    assert (1 * area < threshold * area)
      by (apply Qmult_lt_compat_r; assumption).
    lra.
  - assert (Ha : area == 0) by lra. assert (Hi : inter == 0) by lra.
    unfold np_div. apply Qeq_bool_iff in Ha, Hi. rewrite Ha, Hi. reflexivity.
Qed.

(** With a threshold above 1 nothing is ever discarded from boxes of
    nonnegative sizes: no box can hold more than the whole of another. *)
Theorem suppress_threshold_above_one (bboxes : list bbox) (threshold : Q) :
  Forall nonneg_size bboxes -> 1 < threshold ->
  suppress_inside_bboxes bboxes threshold = bboxes.
Proof.
  intros Hsizes Ht. apply suppress_identity_when_safe.
  rewrite Forall_forall in Hsizes.
  intros b1 b2 H1 H2 (_ & Hge).
  destruct (intersection_area_bounds b1 b2 (Hsizes _ H1) (Hsizes _ H2))
    as (Hp & Hle & _).
  destruct (intersection_area_bounds b2 b1 (Hsizes _ H2) (Hsizes _ H1))
    as (Hp' & _ & Hle').
  destruct Hge as [Hge | Hge].
  - rewrite np_ge_fraction_above_one in Hge by assumption. discriminate.
  - rewrite np_ge_fraction_above_one in Hge by assumption. discriminate.
Qed.

Lemma suppress_threshold_above_one_witness :
  suppress_inside_bboxes [Bbox 0 0 100 100; Bbox 10 10 50 50] (11 # 10)
  = [Bbox 0 0 100 100; Bbox 10 10 50 50].
Proof.
  apply suppress_threshold_above_one.
  - repeat constructor; discriminate.
  - reflexivity.
Defined.

Lemma intersection_area_inside (inner outer : bbox) :
  inside inner outer -> 0 < bw inner -> 0 < bh inner ->
  intersection_area inner outer == bbox_area inner.
Proof.
  intros (Hx1 & Hx2 & Hy1 & Hy2) Hw Hh.
  unfold intersection_area, bbox_area. cbv zeta.
  assert (Ex1 : Qmax (bx inner) (bx outer) == bx inner)
    by (apply Q.max_l; exact Hx1).
  assert (Ey1 : Qmax (by_ inner) (by_ outer) == by_ inner)
    by (apply Q.max_l; exact Hy1).
  assert (Ex2 : Qmin (bx inner + bw inner) (bx outer + bw outer)
                == bx inner + bw inner) by (apply Q.min_l; exact Hx2).
  assert (Ey2 : Qmin (by_ inner + bh inner) (by_ outer + bh outer)
                == by_ inner + bh inner) by (apply Q.min_l; exact Hy2).
  destruct (Qle_bool _ _ || Qle_bool _ _) eqn:Hb.
  - apply orb_true_iff in Hb as [Hb | Hb]; apply Qle_bool_iff in Hb; lra.
  - rewrite Ex1, Ex2, Ey1, Ey2. ring.
Qed.

(** No accepted region lies inside a strictly larger accepted one: for a
    threshold of at most 1, a box of positive size that lies within a box
    of larger area is not in the output together with it. *)
Theorem suppress_no_nested_survivors (bboxes : list bbox) (threshold : Q)
    (inner outer : bbox) :
  threshold <= 1 ->
  inside inner outer -> 0 < bw inner -> 0 < bh inner ->
  bbox_area inner < bbox_area outer ->
  inner ∈ suppress_inside_bboxes bboxes threshold ->
  outer ∉ suppress_inside_bboxes bboxes threshold.
Proof.
  intros Ht Hin Hw Hh Hlt Hi Ho.
  apply (suppress_survivors_safe bboxes threshold inner outer Hi Ho).
  split; [exact Hlt|]. left.
  assert (Hpos : 0 < bbox_area inner)
    by (unfold bbox_area; apply Qmult_lt_0_compat; assumption).
  apply np_ge_div_pos; [exact Hpos|].
  rewrite (intersection_area_inside inner outer Hin Hw Hh).
  assert (threshold * bbox_area inner <= 1 * bbox_area inner)
    by (apply Qmult_le_compat_r; lra).
  lra.
Qed.

Lemma suppress_no_nested_survivors_witness :
  Bbox 70 0 40 20
  ∉ suppress_inside_bboxes
      [Bbox 0 0 100 100; Bbox 70 0 40 20; Bbox 98 0 10 10] default_threshold.
Proof.
  apply (suppress_no_nested_survivors _ _ (Bbox 98 0 10 10) (Bbox 70 0 40 20)).
  - discriminate.
  - repeat split; discriminate.
  - reflexivity.
  - reflexivity.
  - reflexivity.
  - apply np_select_elem. exists 2%nat. split; reflexivity.
Defined.

(** The surviving set depends on the order of the input: a permutation of
    the boxes can change which ones are kept. *)
Theorem suppress_order_dependent :
  ~ (forall (l l' : list bbox) (threshold : Q) (b : bbox),
        l ≡ₚ l' ->
        b ∈ suppress_inside_bboxes l threshold
        <-> b ∈ suppress_inside_bboxes l' threshold).
Proof.
  intros Hinv.
  pose (l := [Bbox 0 0 100 100; Bbox 70 0 40 20; Bbox 98 0 10 10]).
  assert (Hperm : l ≡ₚ rev l) by apply Permutation_rev.
  destruct (Hinv l (rev l) default_threshold (Bbox 98 0 10 10) Hperm)
    as [Hfwd _].
  assert (Hin : Bbox 98 0 10 10 ∈ suppress_inside_bboxes l default_threshold).
  { apply np_select_elem. exists 2%nat. split; reflexivity. }
  specialize (Hfwd Hin).
  apply np_select_elem in Hfwd as (i & Hi & Hk).
  destruct i as [|[|[|i]]]; vm_compute in Hk; discriminate.
Qed.

(** ** A download session *)

Section SessionFacts.

Variable E : env.
Variable output_dir : string.

(** What a call of [download_image] does to the set and the disk. *)
Lemma download_image_effect (u : string) (dedup : gset string) (w : world) :
  let '(r, d', w') := download_image E u output_dir dedup w in
  dedup ⊆ d' /\ dirs w' = dirs w
  /\ match r with
     | None => files w' = files w
     | Some p =>
         exists c : list Byte.byte,
           requests_get E u = Response 200 c
           /\ (md5_hexdigest E c ∉ dedup)
           /\ p = target_path E output_dir c w
           /\ d' = {[md5_hexdigest E c]} ∪ dedup
           /\ files w' = files w ++ [(p, Bytes c)]
     end.
Proof.
  unfold download_image, compute_md5.
  destruct (requests_get E u) as [|status c] eqn:Hget; [done|].
  destruct (Z.eqb_spec status 200) as [-> | Hne]; [|done].
  destruct (decide _) as [Hseen | Hnew]; [done|].
  fold (target_path E output_dir c w).
  destruct (can_write E _).
  - split; [apply union_subseteq_r|]. split; [reflexivity|].
    exists c. done.
  - split; [apply union_subseteq_r|]. done.
Qed.


End SessionFacts.


(** ** The batch generator on any source *)

Section HarvestGeneral.

Variable E : env.
Variable chrome : string -> browser.
Variables (prompt output_dir : string) (k : nat).

(** One iteration on an element: at most one file is written, its path
    joins the batch, and a batch that reaches [k] is yielded. *)
Lemma loop_body_effect (g : gen) (br : browser) (imgs : list element)
    (w : world) :
  let '(o, g1, w1) := loop_body E output_dir k g br imgs w in
  exists new1 : list (string * file_content),
    files w1 = files w ++ new1
    /\ NoDup (file_fingerprint E <$> new1)
    /\ (forall f, f ∈ new1 ->
                  (file_fingerprint E f ∉ dedup_set g)
                  /\ file_fingerprint E f ∈ dedup_set g1)
    /\ dedup_set g ⊆ dedup_set g1
    /\ driver g1 = Some br /\ driver_quit g1 = driver_quit g
    /\ match o with
       | Continue =>
           at_pc g1 = LoopHead /\ batch g1 = batch g ++ new1.*1
           /\ idx g1 = S (idx g) /\ images g1 = imgs
           /\ ((length (batch g) < k)%nat -> (length (batch g1) < k)%nat)
       | Yield b =>
           at_pc g1 = YieldedInLoop /\ b = batch g ++ new1.*1
           /\ length b = k /\ idx g1 = idx g /\ images g1 = imgs
       | StopIteration | Raise => False
       end.
Proof.
  unfold loop_body.
  assert (Hnone : exists new1 : list (string * file_content),
             files w = files w ++ new1
             /\ NoDup (file_fingerprint E <$> new1)
             /\ (forall f, f ∈ new1 ->
                           (file_fingerprint E f ∉ dedup_set g)
                           /\ file_fingerprint E f ∈ dedup_set g)
             /\ dedup_set g ⊆ dedup_set g
             /\ Some br = Some br /\ driver_quit g = driver_quit g
             /\ LoopHead = LoopHead /\ batch g = batch g ++ new1.*1
             /\ S (idx g) = S (idx g) /\ imgs = imgs
             /\ ((length (batch g) < k)%nat -> (length (batch g) < k)%nat)).
  { exists []. rewrite !app_nil_r. split; [done|].
    split; [simpl; constructor|].
    split; [intros f Hf; by apply not_elem_of_nil in Hf|].
    repeat split; done. }
  destruct (imgs !! idx g) as [[src|]|]; try exact Hnone.
  destruct (skip_url src); [exact Hnone|].
  pose proof (download_image_effect E output_dir (default "" src)
                (dedup_set g) w) as Hdl.
  destruct (download_image E (default "" src) output_dir (dedup_set g) w)
    as [[r d1] w1].
  destruct Hdl as (Hsub & _ & Hr).
  assert (Hnew : exists new1 : list (string * file_content),
             files w1 = files w ++ new1
             /\ NoDup (file_fingerprint E <$> new1)
             /\ (forall f, f ∈ new1 ->
                           (file_fingerprint E f ∉ dedup_set g)
                           /\ file_fingerprint E f ∈ d1)
             /\ match r with
                | Some p => batch g ++ [p]
                | None => batch g
                end = batch g ++ new1.*1).
  { destruct r as [p|].
    - destruct Hr as (c & _ & Hfresh & -> & -> & Hfiles).
      exists [(target_path E output_dir c w, Bytes c)].
      split; [exact Hfiles|]. split; [apply NoDup_singleton|].
      split; [|reflexivity].
      intros f Hf. apply list_elem_of_singleton in Hf as ->.
      split; [exact Hfresh|].
      apply elem_of_union_l, elem_of_singleton. reflexivity.
    - exists []. rewrite !app_nil_r. split; [exact Hr|].
      split; [simpl; constructor|]. split; [|reflexivity].
      intros f Hf. by apply not_elem_of_nil in Hf. }
  destruct Hnew as (new1 & Hfiles & Hnd & Hfp & Hb).
  destruct (Nat.eqb_spec
              (length match r with
                      | Some p => batch g ++ [p]
                      | None => batch g
                      end) k) as [Hfull | Hpart];
    exists new1; cbn [dedup_set driver driver_quit at_pc batch idx images].
  - repeat split; try done; apply Hfp; done.
  - repeat split; try done; try (apply Hfp; done).
    intros Hlt.
    assert (Hle : (length match r with
                          | Some p => batch g ++ [p]
                          | None => batch g
                          end <= S (length (batch g)))%nat).
    { destruct r; [rewrite length_app; simpl|]; lia. }
    lia.
Qed.

(** One step of a started generator. *)
Lemma step_effect (g : gen) (w : world) :
  at_pc g <> NotStarted ->
  step_post E k g w (step E chrome prompt output_dir k g w).
Proof.
  intros Hstarted. unfold step.
  assert (Hquiet : forall (o : outcome) (g1 : gen),
             dedup_set g ⊆ dedup_set g1 ->
             match o with
             | Continue =>
                 at_pc g1 = LoopHead /\ pending g1 = pending g
                 /\ ((0 < k)%nat -> (length (pending g) < k)%nat ->
                     (length (pending g1) < k)%nat)
             | Yield b =>
                 b = pending g /\ pending g1 = []
                 /\ at_pc g1 = YieldedLast /\ b <> []
             | StopIteration => at_pc g1 = Finished /\ pending g = []
             | Raise => True
             end ->
             step_post E k g w (o, g1, w)).
  { intros o g1 Hsub Ho. exists []. rewrite app_nil_r. split; [done|].
    split; [simpl; constructor|].
    split; [intros f Hf; by apply not_elem_of_nil in Hf|].
    split; [exact Hsub|].
    destruct o; simpl; rewrite ?app_nil_r; intuition. }
  assert (Hbody : forall br imgs,
             at_pc g = LoopHead ->
             step_post E k g w (loop_body E output_dir k g br imgs w)).
  { intros br imgs Hpc. unfold step_post.
    pose proof (loop_body_effect g br imgs w) as Hb.
    destruct (loop_body E output_dir k g br imgs w) as [[o g1] w1].
    destruct Hb as (new1 & Hfiles & Hnd & Hfp & Hsub & _ & _ & Ho).
    exists new1. repeat (split; [assumption|]).
    unfold pending. rewrite Hpc.
    destruct o as [| b | |]; try contradiction.
    - destruct Ho as (Hpc1 & Hb1 & _ & _ & Hlen). rewrite Hpc1. auto.
    - destruct Ho as (Hpc1 & Hb1 & Hlen & _). rewrite Hpc1. auto. }
  destruct (at_pc g) eqn:Hpc; [done| | | |].
  - destruct (driver g) as [br|]; [|by apply Hquiet].
    assert (Hafter : forall br' imgs,
               step_post E k g w
                 (after_loop
                    (Gen LoopHead (Some br') (driver_quit g) (dedup_set g)
                       imgs (idx g) (batch g)) w)).
    { intros br' imgs. unfold after_loop.
      cbn [batch driver driver_quit dedup_set images idx].
      destruct (batch g) as [|x b] eqn:Hbatch; apply Hquiet; try done;
        unfold pending; rewrite Hpc, Hbatch; done. }
    destruct (Nat.leb (length (images g)) (idx g)); [|by apply Hbody].
    destruct (find_elements (scroll_to_bottom br)) as [imgs|];
      [|by apply Hquiet].
    destruct (Nat.leb (length imgs) (idx g)); [apply Hafter | by apply Hbody].
  - apply Hquiet; [done|]. unfold pending. rewrite Hpc. done.
  - apply Hquiet; [done|]. unfold pending. rewrite Hpc. done.
  - apply Hquiet; [done|]. unfold pending. rewrite Hpc. done.
Qed.


(** The sizes of the batches of a started generator. *)
Lemma gen_all_shape (fuel : nat) :
  forall (g : gen) (w : world) (bs : list (list string)) (ok : bool)
         (g' : gen) (w' : world),
    (0 < k)%nat -> at_pc g <> NotStarted -> (length (pending g) < k)%nat ->
    gen_all E chrome prompt output_dir k fuel g w = Some (bs, ok, g', w') ->
    (at_pc g = YieldedLast -> bs = [])
    /\ forall (i : nat) (b : list string),
         bs !! i = Some b ->
         length b = k \/ (S i = length bs /\ (0 < length b < k)%nat).
Proof.
  induction fuel as [|fuel IH]; intros g w bs ok g' w' Hk Hstarted Hlen Hrun;
    [discriminate|].
  rewrite gen_all_S in Hrun.
  pose proof (step_effect g w Hstarted) as Hstep.
  assert (Hlast : at_pc g = YieldedLast ->
                  step E chrome prompt output_dir k g w
                  = (StopIteration,
                     Gen Finished (driver g) true (dedup_set g) (images g)
                       (idx g) (batch g), w))
    by (intros Hpc; unfold step; by rewrite Hpc).
  destruct (step E chrome prompt output_dir k g w) as [[o g1] w1].
  destruct Hstep as (new1 & _ & _ & _ & _ & Ho).
  destruct o as [| b | |]; cbn [after_step] in Hrun.
  - destruct Ho as (Hpc1 & _ & Hlen1).
    destruct (IH g1 w1 bs ok g' w' Hk) as [_ Hshape];
      [congruence | by apply Hlen1 | exact Hrun |].
    split; [|exact Hshape]. intros Hpc. specialize (Hlast Hpc). discriminate.
  - destruct (gen_all E chrome prompt output_dir k fuel g1 w1)
      as [[[[bs' ok'] g2] w2]|] eqn:Hrest; [|discriminate].
    injection Hrun as <- <- <- <-.
    destruct Ho as (Hb & Hpend & Hpc1).
    destruct (IH g1 w1 bs' ok' g2 w2 Hk) as [Hnil Hshape];
      [destruct Hpc1 as [[-> _] | [-> _]]; discriminate
      | rewrite Hpend; simpl; lia | exact Hrest |].
    split; [intros Hpc; specialize (Hlast Hpc); discriminate|].
    intros [|i] b' Hi; simpl in Hi.
    + injection Hi as <-.
      destruct Hpc1 as [[_ Hfull] | (Hpc1 & -> & Hne)]; [by left|].
      right. rewrite (Hnil Hpc1). split; [reflexivity|].
      rewrite app_nil_r in Hb. subst b.
      destruct (pending g); [done | simpl in *; lia].
    + destruct (Hshape i b' Hi) as [Hfull | [Hend Hpart]]; [by left|].
      right. simpl. split; [lia | exact Hpart].
  - injection Hrun as <- <- <- <-. split; [done|]. intros i b Hi. discriminate.
  - injection Hrun as <- <- <- <-. split; [done|].
    intros i b Hi. discriminate.
Qed.

(** The browser session along the steps: held and not quit while the
    generator lives, quit by the step that ends it normally, still not
    quit when a step raises. *)
Lemma step_driver (g : gen) (w : world) :
  is_Some (driver g) -> driver_quit g = false -> live g ->
  match step E chrome prompt output_dir k g w with
  | (Continue, g1, _) | (Yield _, g1, _) =>
      is_Some (driver g1) /\ driver_quit g1 = false /\ live g1
  | (StopIteration, g1, _) =>
      at_pc g1 = Finished /\ is_Some (driver g1) /\ driver_quit g1 = true
  | (Raise, g1, _) => at_pc g1 = Finished /\ driver_leaked g1
  end.
Proof.
  intros [br Hbr] Hq Hlive. unfold step, live, driver_leaked in *.
  assert (Hbody : forall br' imgs,
             match loop_body E output_dir k g br' imgs w with
             | (Continue, g1, _) | (Yield _, g1, _) =>
                 is_Some (driver g1) /\ driver_quit g1 = false
                 /\ (at_pc g1 = LoopHead \/ at_pc g1 = YieldedInLoop
                     \/ at_pc g1 = YieldedLast)
             | (StopIteration, g1, _) =>
                 at_pc g1 = Finished /\ is_Some (driver g1)
                 /\ driver_quit g1 = true
             | (Raise, g1, _) =>
                 at_pc g1 = Finished
                 /\ is_Some (driver g1) /\ driver_quit g1 = false
             end).
  { intros br' imgs. pose proof (loop_body_effect g br' imgs w) as Hb.
    destruct (loop_body E output_dir k g br' imgs w) as [[o g1] w1].
    destruct Hb as (new1 & _ & _ & _ & _ & Hd & Hq1 & Ho).
    destruct o; try contradiction; destruct Ho as (Hpc1 & _);
      rewrite Hd, Hq1, Hpc1; eauto. }
  destruct (at_pc g) eqn:Hpc.
  - destruct Hlive as [? | [? | ?]]; discriminate.
  - rewrite Hbr.
    destruct (Nat.leb (length (images g)) (idx g)); [|apply Hbody].
    destruct (find_elements (scroll_to_bottom br)) as [imgs|];
      [|simpl; eauto].
    destruct (Nat.leb (length imgs) (idx g)); [|apply Hbody].
    unfold after_loop. simpl. destruct (batch g); simpl; eauto 6.
  - simpl. rewrite Hbr. eauto 6.
  - simpl. rewrite Hbr. eauto.
  - destruct Hlive as [? | [? | ?]]; discriminate.
Qed.

Lemma gen_all_end (fuel : nat) :
  forall (g : gen) (w : world) (bs : list (list string)) (ok : bool)
         (g' : gen) (w' : world),
    is_Some (driver g) -> driver_quit g = false -> live g ->
    gen_all E chrome prompt output_dir k fuel g w = Some (bs, ok, g', w') ->
    at_pc g' = Finished /\ is_Some (driver g') /\ driver_quit g' = ok.
Proof.
  induction fuel as [|fuel IH]; intros g w bs ok g' w' Hd Hq Hlive Hrun;
    [discriminate|].
  rewrite gen_all_S in Hrun.
  pose proof (step_driver g w Hd Hq Hlive) as Hstep.
  destruct (step E chrome prompt output_dir k g w) as [[[| b | |] g1] w1];
    cbn [after_step] in Hrun.
  - destruct Hstep as (? & ? & ?). by eapply IH.
  - destruct (gen_all E chrome prompt output_dir k fuel g1 w1)
      as [[[[bs' ok'] g2] w2]|] eqn:Hrest; [|discriminate].
    injection Hrun as <- <- <- <-. destruct Hstep as (? & ? & ?).
    by eapply IH.
  - injection Hrun as <- <- <- <-. exact Hstep.
  - injection Hrun as <- <- <- <-. destruct Hstep as (? & ? & ?). done.
Qed.

Lemma foldr_max_split (a : nat) (l : list dom) :
  foldr (fun d n => Nat.max (dom_length d) n) a l
  = Nat.max a (foldr (fun d n => Nat.max (dom_length d) n) 0%nat l).
Proof. induction l as [|d l IH]; simpl; [lia | rewrite IH; lia]. Qed.

Lemma max_shown_page (br : browser) (imgs : list element) :
  find_elements br = Some imgs -> (length imgs <= max_shown br)%nat.
Proof.
  unfold find_elements, max_shown. intros Hf.
  rewrite foldr_max_split.
  destruct (page br); [injection Hf as <-; simpl; lia | discriminate].
Qed.

Lemma max_shown_scroll (br : browser) :
  (max_shown (scroll_to_bottom br) <= max_shown br)%nat.
Proof.
  unfold scroll_to_bottom.
  destruct (scrolls br) as [|d rest] eqn:Hs; [reflexivity|].
  unfold max_shown. rewrite Hs. simpl.
  rewrite (foldr_max_split (dom_length d)),
    (foldr_max_split (dom_length (page br))). lia.
Qed.

(** From the loop head the generator ends within two steps for every index
    still below the most elements the browser can show, and two more. *)
Lemma gen_all_total (n : nat) :
  forall (g : gen) (w : world) (br : browser) (fuel : nat),
    at_pc g = LoopHead -> driver g = Some br ->
    (length (images g) <= max_shown br)%nat ->
    (max_shown br - idx g <= n)%nat ->
    (2 * n + 2 <= fuel)%nat ->
    is_Some (gen_all E chrome prompt output_dir k fuel g w).
Proof.
  induction n as [|n IH]; intros g w br fuel Hpc Hbr Himgs Hmu Hfuel.
  - destruct fuel as [|[|fuel]]; [lia | lia |].
    rewrite gen_all_S. unfold step. rewrite Hpc, Hbr.
    destruct (Nat.leb_spec (length (images g)) (idx g)); [|lia].
    pose proof (max_shown_scroll br) as Hsc.
    destruct (find_elements (scroll_to_bottom br)) as [imgs|] eqn:Hfind;
      [|simpl; eauto].
    apply max_shown_page in Hfind.
    destruct (Nat.leb_spec (length imgs) (idx g)); [|lia].
    unfold after_loop. simpl. destruct (batch g); simpl; eauto.
  - destruct fuel as [|[|fuel]]; [lia | lia |].
    assert (Hbody : forall br' imgs,
               (idx g < length imgs)%nat ->
               (length imgs <= max_shown br')%nat ->
               (max_shown br' <= max_shown br)%nat ->
               is_Some (after_step E chrome prompt output_dir k (S fuel)
                          (loop_body E output_dir k g br' imgs w))).
    { intros br' imgs Hi Hlen Hle.
      pose proof (loop_body_effect g br' imgs w) as Hb.
      destruct (loop_body E output_dir k g br' imgs w) as [[o g1] w1].
      destruct Hb as (new1 & _ & _ & _ & _ & Hd & _ & Ho).
      destruct o as [| b | |]; try contradiction; cbn [after_step].
      - destruct Ho as (Hpc1 & _ & Hidx & Himg & _).
        apply (IH g1 w1 br'); [done | done | by rewrite Himg | lia | lia].
      - destruct Ho as (Hpc1 & _ & _ & Hidx & Himg).
        rewrite gen_all_S. unfold step at 1. rewrite Hpc1. cbn [after_step].
        destruct (IH (Gen LoopHead (driver g1) (driver_quit g1)
                        (dedup_set g1) (images g1) (S (idx g1)) [])
                    w1 br' fuel) as (r & Hr);
          [done | done | simpl; by rewrite Himg | simpl; lia | lia |].
        rewrite Hr. destruct r as [[[bs ok] g2] w2]. eauto. }
    rewrite gen_all_S. unfold step. rewrite Hpc, Hbr.
    destruct (Nat.leb_spec (length (images g)) (idx g)).
    + pose proof (max_shown_scroll br) as Hsc.
      destruct (find_elements (scroll_to_bottom br)) as [imgs|] eqn:Hfind;
        [|simpl; eauto].
      apply max_shown_page in Hfind.
      destruct (Nat.leb_spec (length imgs) (idx g)).
      * unfold after_loop. simpl. destruct (batch g); simpl; eauto.
      * by apply Hbody.
    + by apply Hbody.
Qed.

Lemma gen_all_start (fuel : nat) (w0 : world) :
  gen_all E chrome prompt output_dir k (S fuel) yandex_images_batch_generator
    w0
  = match find_elements (chrome (search_url prompt)) with
    | None =>
        Some ([], false,
              Gen Finished (Some (chrome (search_url prompt))) false ∅ [] 0
                [],
              makedirs output_dir w0)
    | Some imgs =>
        gen_all E chrome prompt output_dir k fuel
          (Gen LoopHead (Some (chrome (search_url prompt))) false ∅ imgs 0
             [])
          (makedirs output_dir w0)
    end.
Proof.
  rewrite gen_all_S. unfold step, yandex_images_batch_generator, search_url.
  cbn [at_pc]. destruct (find_elements _); reflexivity.
Qed.

End HarvestGeneral.

(** On every source the generator comes to an end: with [m] the most
    elements the browser ever shows, [list(generator)] needs no more than
    [2 m + 3] steps. *)
Theorem harvester_terminates (E : env) (chrome : string -> browser)
    (prompt output_dir : string) (k : nat) (w0 : world) (fuel : nat) :
  (2 * max_shown (chrome (search_url prompt)) + 3 <= fuel)%nat ->
  is_Some (gen_all E chrome prompt output_dir k fuel
             yandex_images_batch_generator w0).
Proof.
  intros Hfuel. destruct fuel as [|fuel]; [lia|].
  rewrite gen_all_start.
  destruct (find_elements (chrome (search_url prompt))) as [imgs|] eqn:Hfind;
    [|eauto].
  apply (gen_all_total E chrome prompt output_dir k
           (max_shown (chrome (search_url prompt))) _ _
           (chrome (search_url prompt)));
    [done | done | by apply max_shown_page | simpl; lia | lia].
Qed.

Lemma harvester_terminates_witness :
  is_Some (gen_all (sample_env true)
             (fun _ =>
                Browser (Dom [Element (Some "http://a"); StaleElement])
                  [Dom [Element (Some "http://a"); StaleElement;
                        Element (Some "data:image/png;base64,AAAA");
                        Element (Some "http://b")]])
             "beer" "out" 2 11 yandex_images_batch_generator empty_world).
Proof. apply harvester_terminates. vm_compute. lia. Defined.



(** With a batch size [k > 0], on every source, every batch the generator
    yields has exactly [k] paths, but for the last one of a run, which may
    have fewer and is never empty. *)
Theorem harvester_batch_sizes (E : env) (chrome : string -> browser)
    (prompt output_dir : string) (k : nat) (w0 : world) (fuel : nat)
    (batches : list (list string)) (ok : bool) (g : gen) (w : world) :
  (0 < k)%nat ->
  gen_all E chrome prompt output_dir k fuel yandex_images_batch_generator w0
  = Some (batches, ok, g, w) ->
  forall (i : nat) (b : list string),
    batches !! i = Some b ->
    length b = k \/ (S i = length batches /\ (0 < length b < k)%nat).
Proof.
  intros Hk Hrun. destruct fuel as [|fuel]; [discriminate|].
  rewrite gen_all_start in Hrun.
  destruct (find_elements (chrome (search_url prompt))) as [imgs|].
  - apply gen_all_shape in Hrun as [_ Hshape];
      [exact Hshape | exact Hk | discriminate | simpl; lia].
  - injection Hrun as <- <- <- <-. intros i b Hi. discriminate.
Qed.

Lemma harvester_batch_sizes_witness :
  length ["out/uuid2_http://c.png"] = 2%nat
  \/ (2%nat
      = length [["out/uuid0_http://a.png"; "out/uuid1_http://b.png"];
                ["out/uuid2_http://c.png"]]
      /\ (0 < length ["out/uuid2_http://c.png"] < 2)%nat).
Proof.
  eapply (harvester_batch_sizes (sample_env true)
            (sample_chrome [Element (Some "http://a");
                            Element (Some "http://gone");
                            Element (Some "http://b");
                            Element None;
                            Element (Some "http://c")])
            "beer" "out" 2 empty_world 13
            [["out/uuid0_http://a.png"; "out/uuid1_http://b.png"];
             ["out/uuid2_http://c.png"]]);
    [lia | vm_compute; reflexivity | reflexivity].
Defined.

(** [driver.quit()] has run at the end of a run of the generator exactly
    when the run ended by [StopIteration]: a run that ends by an exception
    ends without it. *)
Theorem harvester_session_at_end (E : env) (chrome : string -> browser)
    (prompt output_dir : string) (k : nat) (w0 : world) (fuel : nat)
    (batches : list (list string)) (ok : bool) (g : gen) (w : world) :
  gen_all E chrome prompt output_dir k fuel yandex_images_batch_generator w0
  = Some (batches, ok, g, w) ->
  at_pc g = Finished /\ driver_quit g = ok.
Proof.
  intros Hrun. destruct fuel as [|fuel]; [discriminate|].
  rewrite gen_all_start in Hrun.
  destruct (find_elements (chrome (search_url prompt))) as [imgs|].
  - apply gen_all_end in Hrun;
      [tauto | simpl; eauto | reflexivity | by left].
  - injection Hrun as <- <- <- <-. simpl. eauto.
Qed.

Lemma harvester_session_at_end_witness :
  exists g : gen, at_pc g = Finished /\ driver_quit g = false.
Proof.
  eexists.
  eapply (harvester_session_at_end (sample_env true)
            (fun _ => Browser (Dom [Element (Some "http://a")]) [DriverError])
            "beer" "out" 2 empty_world 9).
  vm_compute. reflexivity.
Defined.

(** ** Truncation of coordinates *)

Lemma astype_int_nonneg (q : Q) :
  0 <= q ->
  (0 <= astype_int q)%Z
  /\ inject_Z (astype_int q) <= q /\ q < inject_Z (astype_int q) + 1.
Proof.
  destruct q as [n d]. intros Hq. unfold astype_int. cbn [Qnum Qden].
  assert (Hn : (0 <= n)%Z) by (unfold Qle in Hq; simpl in Hq; lia).
  pose proof (Z.quot_rem' n (Z.pos d)) as Hqr.
  pose proof (Z.rem_bound_pos n (Z.pos d) Hn ltac:(lia)) as Hr.
  split; [apply Z.quot_pos; lia|].
  unfold Qle, Qlt, Qplus, inject_Z. cbn [Qnum Qden]. split; nia.
Qed.

Lemma astype_int_ge (q : Q) (n : Z) :
  0 <= q -> inject_Z n <= q -> (n <= astype_int q)%Z.
Proof.
  intros Hq Hn. destruct (astype_int_nonneg q Hq) as (_ & _ & Hup).
  assert (Hlt : inject_Z n < inject_Z (astype_int q + 1)).
  { rewrite inject_Z_plus. change (inject_Z 1) with 1. lra. }
  rewrite <- Zlt_Qlt in Hlt. lia.
Qed.

Lemma astype_int_zero (q : Q) : 0 <= q -> q < 1 -> astype_int q = 0%Z.
Proof.
  intros Hq Hone. destruct (astype_int_nonneg q Hq) as (Hpos & Hlow & _).
  assert (Hlt : inject_Z (astype_int q) < inject_Z 1).
  { change (inject_Z 1) with 1. lra. }
  rewrite <- Zlt_Qlt in Hlt. lia.
Qed.


Lemma slice_index_le (n i : Z) : (0 <= n)%Z -> (slice_index n i <= n)%Z.
Proof.
  intros Hn. unfold slice_index. destruct (Z.ltb_spec i 0); lia.
Qed.

(** A side less than an item long selects nothing. *)
Lemma slice_of_nothing (n : Z) (a l : Q) :
  0 <= l -> l < 1 ->
  (slice_length n (astype_int a) (astype_int a + astype_int l) =? 0)%Z = true.
Proof.
  intros Hl0 Hl1. rewrite (astype_int_zero l Hl0 Hl1), Z.add_0_r.
  apply Z.eqb_eq. unfold slice_length. lia.
Qed.

(** A side that starts at the end of the items or after it selects
    nothing. *)
Lemma slice_beyond (n : Z) (a : Q) (stop : Z) :
  (0 <= n)%Z -> inject_Z n <= a ->
  (slice_length n (astype_int a) stop =? 0)%Z = true.
Proof.
  intros Hn Ha.
  assert (Ha0 : 0 <= a).
  { rewrite Zle_Qle in Hn. change (inject_Z 0) with 0 in Hn. lra. }
  pose proof (astype_int_ge a n Ha0 Ha) as Hge.
  pose proof (slice_index_le n stop Hn) as Hstop.
  apply Z.eqb_eq. unfold slice_length.
  assert (Hstart : slice_index n (astype_int a) = n).
  { unfold slice_index. destruct (Z.ltb_spec (astype_int a) 0); lia. }
  lia.
Qed.

Lemma image_width_nonneg (im : image) : (0 <= image_width im)%Z.
Proof. destruct im; simpl; lia. Qed.

Lemma image_height_nonneg (im : image) : (0 <= image_height im)%Z.
Proof. unfold image_height. lia. Qed.


Lemma off_image_crop (im : image) (b : bbox) :
  off_image im b ->
  crop_is_empty im (astype_int (by_ b)) (astype_int (by_ b) + astype_int (bh b))
    (astype_int (bx b)) (astype_int (bx b) + astype_int (bw b))
  = true.
Proof.
  unfold crop_is_empty.
  intros [[Hw0 Hw1] | [[Hh0 Hh1] | [[Hx _] | [Hy _]]]];
    apply orb_true_iff.
  - right. by apply slice_of_nothing.
  - left. by apply slice_of_nothing.
  - right. apply slice_beyond; [apply image_width_nonneg | exact Hx].
  - left. apply slice_beyond; [apply image_height_nonneg | exact Hy].
Qed.

(** ** What the persist step writes *)

Section PersistFacts.

Variable E : env.
Variable im : image.
Variables (base_name bbox_dir : string).

Lemma imap_shift {A B : Type} (f : nat -> A -> B) (idx : nat) (l : list A) :
  imap ((fun i => f (idx + i)%nat) ∘ S) l = imap (fun i => f (S idx + i)%nat) l.
Proof. apply imap_ext. intros i x _. simpl. f_equal. lia. Qed.


(** The loop over any boxes: it adds crops only, and on its return the
    rows list every box. *)
Lemma save_crops_shape (bboxes : list bbox) :
  forall (idx : nat) (w : world),
    exists crops : list (string * file_content),
      Forall (fun f => is_csv f = false) crops
      /\ (save_crops E im base_name bbox_dir idx bboxes w).2
         = World (dirs w) (files w ++ crops) (uuid_drawn w)
      /\ forall rows : list csv_row,
           (save_crops E im base_name bbox_dir idx bboxes w).1 = Returned rows ->
           rows = imap (fun i => row_of base_name (idx + i)) bboxes.
Proof.
  induction bboxes as [|b rest IH]; intros idx w.
  - exists []. simpl. rewrite app_nil_r.
    split; [constructor | split; [by destruct w|]].
    intros rows Hrows. by injection Hrows as <-.
  - cbn [save_crops].
    destruct (crop_is_empty im _ _ _ _).
    { exists []. simpl. rewrite app_nil_r.
      split; [constructor | split; [by destruct w|]].
      intros rows Hrows. discriminate. }
    set (file_path := os_path_join E bbox_dir _).
    set (crop := Crop im _ _ _ _).
    set (w1 := if can_write E file_path then write_file file_path crop w
               else w).
    destruct (IH (S idx) w1) as (crops & Hcrops & Hworld & Hrows).
    exists ((if can_write E file_path then [(file_path, crop)] else [])
            ++ crops).
    destruct (save_crops E im base_name bbox_dir (S idx) rest w1)
      as [[rows|] w2]; cbn [fst snd] in *; subst w2.
    + split; [|split].
      * apply Forall_app. split; [|exact Hcrops].
        destruct (can_write E file_path); by repeat constructor.
      * subst w1. destruct (can_write E file_path); simpl;
          by rewrite <- ?app_assoc.
      * intros rows' Heq. injection Heq as <-.
        rewrite imap_cons, Nat.add_0_r.
        rewrite (imap_shift (row_of base_name)).
        rewrite (Hrows rows eq_refl). reflexivity.
    + split; [|split].
      * apply Forall_app. split; [|exact Hcrops].
        destruct (can_write E file_path); by repeat constructor.
      * subst w1. destruct (can_write E file_path); simpl;
          by rewrite <- ?app_assoc.
      * intros rows' Heq. discriminate.
Qed.

(** The loop raises when a box selects no pixel. *)
Lemma save_crops_off_image (bboxes : list bbox) :
  forall (idx : nat) (w : world),
    Exists (off_image im) bboxes ->
    (save_crops E im base_name bbox_dir idx bboxes w).1 = Raised.
Proof.
  induction bboxes as [|b rest IH]; intros idx w Hex.
  - by apply Exists_nil in Hex.
  - cbn [save_crops]. apply Exists_cons in Hex as [Hb | Hrest].
    + by rewrite (off_image_crop im b Hb).
    + destruct (crop_is_empty im _ _ _ _); [reflexivity|].
      match goal with
      | |- context [save_crops E im base_name bbox_dir (S idx) rest ?w1] =>
          specialize (IH (S idx) w1 Hrest);
          destruct (save_crops E im base_name bbox_dir (S idx) rest w1)
            as [[rows|] w2]
      end; [discriminate | reflexivity].
Qed.

End PersistFacts.


(** Whatever the boxes and the disk: the step adds crops and, on its
    return only, the CSV of the image after them. *)
Lemma extract_and_save_bboxes_shape (E : env) (im : image)
    (bboxes : list bbox) (bbox_dir csv_dir image_path : string) (w : world) :
  exists crops : list (string * file_content),
    Forall (fun f => is_csv f = false) crops
    /\ files (extract_and_save_bboxes E im bboxes bbox_dir csv_dir image_path
                w).2
       = files w ++ crops
         ++ match (extract_and_save_bboxes E im bboxes bbox_dir csv_dir
                     image_path w).1 with
            | Returned _ =>
                [(csv_path E csv_dir image_path,
                  Csv csv_header
                    (imap (row_of (path_base_name E image_path)) bboxes))]
            | Raised => []
            end.
Proof.
  unfold extract_and_save_bboxes, csv_path.
  destruct (can_write E bbox_dir); cbn [negb];
    [|exists []; simpl; by rewrite app_nil_r].
  destruct (can_write E csv_dir); cbn [negb];
    [|exists []; simpl; by rewrite app_nil_r].
  destruct (save_crops_shape E im (path_base_name E image_path) bbox_dir
              bboxes 0 (makedirs csv_dir (makedirs bbox_dir w)))
    as (crops & Hcrops & Hworld & Hrows).
  exists crops. split; [exact Hcrops|].
  destruct (save_crops E im (path_base_name E image_path) bbox_dir 0 bboxes
              (makedirs csv_dir (makedirs bbox_dir w))) as [[rows|] w2];
    cbn [fst snd] in *; subst w2.
  - rewrite (Hrows rows eq_refl).
    destruct (can_write E (os_path_join E csv_dir _)); simpl;
      [by rewrite <- app_assoc | by rewrite app_nil_r].
  - simpl. by rewrite app_nil_r.
Qed.

Lemma filter_is_csv_crops (crops : list (string * file_content)) :
  Forall (fun f => is_csv f = false) crops -> List.filter is_csv crops = [].
Proof. induction 1 as [|f l Hf _ IH]; simpl; [done | by rewrite Hf]. Qed.



(** A box less than a pixel wide or high, or one that starts at the right
    or the lower edge of the image or beyond it, makes the persist step
    raise, [cv2.imwrite] refusing the empty crop: the image gets no CSV,
    whatever crops of the boxes before it were written. *)
Theorem extract_and_save_bboxes_empty_crop (E : env) (im : image)
    (bboxes : list bbox) (bbox_dir csv_dir image_path : string) (w : world) :
  can_write E bbox_dir = true ->
  can_write E csv_dir = true ->
  Exists (off_image im) bboxes ->
  (extract_and_save_bboxes E im bboxes bbox_dir csv_dir image_path w).1
  = Raised
  /\ List.filter is_csv
       (files (extract_and_save_bboxes E im bboxes bbox_dir csv_dir
                 image_path w).2)
     = List.filter is_csv (files w).
Proof.
  intros Hb Hc Hex.
  assert (Hraised :
            (extract_and_save_bboxes E im bboxes bbox_dir csv_dir image_path
               w).1 = Raised).
  { unfold extract_and_save_bboxes. rewrite Hb, Hc. cbn [negb].
    pose proof (save_crops_off_image E im (path_base_name E image_path)
                  bbox_dir bboxes 0 (makedirs csv_dir (makedirs bbox_dir w))
                  Hex) as Hloop.
    destruct (save_crops E im (path_base_name E image_path) bbox_dir 0 bboxes
                (makedirs csv_dir (makedirs bbox_dir w))) as [[rows|] w2];
      [discriminate | reflexivity]. }
  split; [exact Hraised|].
  destruct (extract_and_save_bboxes_shape E im bboxes bbox_dir csv_dir
              image_path w) as (crops & Hcrops & ->).
  rewrite Hraised, app_nil_r, List.filter_app.
  by rewrite (filter_is_csv_crops crops Hcrops), app_nil_r.
Qed.

Lemma extract_and_save_bboxes_empty_crop_witness :
  (extract_and_save_bboxes (shelf_env true) shelf_image
     [Bbox 0 0 10 20; Bbox 100 100 10 20] "bboxes" "csv" "shelf"
     empty_world).1
  = Raised
  /\ List.filter is_csv
       (files (extract_and_save_bboxes (shelf_env true) shelf_image
                 [Bbox 0 0 10 20; Bbox 100 100 10 20] "bboxes" "csv" "shelf"
                 empty_world).2)
     = List.filter is_csv (files empty_world).
Proof.
  apply (extract_and_save_bboxes_empty_crop (shelf_env true) shelf_image
           [Bbox 0 0 10 20; Bbox 100 100 10 20] "bboxes" "csv" "shelf"
           empty_world).
  - reflexivity.
  - reflexivity.
  - right. left. right. right. left. vm_compute.
    split; [discriminate | reflexivity].
Defined.

(** ** Names of the crops *)

Lemma string_length_app (s t : string) :
  String.length (s +:+ t) = (String.length s + String.length t)%nat.
Proof. induction s as [|c s IH]; simpl; [reflexivity | by rewrite IH]. Qed.

Lemma string_app_inj_r (t s1 s2 : string) : s1 +:+ t = s2 +:+ t -> s1 = s2.
Proof.
  revert s2. induction s1 as [|c s1 IH]; intros [|d s2] Heq.
  - reflexivity.
  - apply (f_equal String.length) in Heq.
    rewrite !string_length_app in Heq. simpl in Heq. lia.
  - apply (f_equal String.length) in Heq.
    rewrite !string_length_app in Heq. simpl in Heq. lia.
  - change (String c (s1 +:+ t) = String d (s2 +:+ t)) in Heq.
    injection Heq as -> Heq. f_equal. by apply IH.
Qed.

Lemma crop_name_inj (base_name : string) (i j : nat) :
  crop_name base_name i = crop_name base_name j -> i = j.
Proof.
  unfold crop_name. intros Heq.
  apply (inj (String.append base_name)) in Heq.
  apply (inj (String.append "_")) in Heq.
  apply string_app_inj_r in Heq. by apply (inj pretty) in Heq.
Qed.

(** No two regions of an image get the same crop file name: a CSV the
    persist step writes has one row per box, and its rows name pairwise
    distinct files. *)
Theorem crop_file_names_distinct (E : env) (im : image)
    (bboxes : list bbox) (bbox_dir csv_dir image_path : string) (w : world)
    (p : string) (rows : list csv_row) :
  (p, Csv csv_header rows)
  ∈ files (extract_and_save_bboxes E im bboxes bbox_dir csv_dir image_path
             w).2 ->
  (p, Csv csv_header rows) ∉ files w ->
  length rows = length bboxes /\ NoDup (row_file_name <$> rows).
Proof.
  destruct (extract_and_save_bboxes_shape E im bboxes bbox_dir csv_dir
              image_path w) as (crops & Hcrops & ->).
  intros Hin Hold.
  assert (Hrows : rows = imap (row_of (path_base_name E image_path)) bboxes).
  { apply elem_of_app in Hin as [Hin | Hin]; [contradiction|].
    apply elem_of_app in Hin as [Hin | Hin].
    - rewrite Forall_forall in Hcrops. apply Hcrops in Hin. discriminate.
    - destruct (extract_and_save_bboxes E im bboxes bbox_dir csv_dir
                  image_path w).1.
      + apply list_elem_of_singleton in Hin. congruence.
      + by apply elem_of_nil in Hin. }
  subst rows. split; [apply length_imap|].
  rewrite fmap_imap.
  rewrite (imap_ext _ (fun i _ => crop_name (path_base_name E image_path) i))
    by done.
  rewrite imap_seq_0.
  apply NoDup_fmap_2_strong; [|apply NoDup_seq].
  intros i j _ _. apply crop_name_inj.
Qed.

Lemma crop_file_names_distinct_witness :
  length ([(0, 0, 10, 20, "shelf_0.png")%Z;
           (2, 2, 5, 10, "shelf_1.png")%Z] : list csv_row)
  = length [Bbox 0 0 10 20; Bbox 2 2 5 10]
  /\ NoDup (row_file_name
              <$> [(0, 0, 10, 20, "shelf_0.png")%Z;
                   (2, 2, 5, 10, "shelf_1.png")%Z]).
Proof.
  apply (crop_file_names_distinct (shelf_env true) shelf_image
           [Bbox 0 0 10 20; Bbox 2 2 5 10] "bboxes" "csv" "shelf"
           empty_world "csv/shelf.csv").
  - vm_compute. right. right. left.
  - apply not_elem_of_nil.
Defined.

(** ** The pipeline on an image with regions *)





(** ** The loop over a directory of images *)

Section ProcessImages.

Variable E : env.
Variable mask_generator : oracle.
Variables (bboxes_dir csv_dir : string).
Hypothesis disk_ok : forall p : string, can_write E p = true.






End ProcessImages.



(** ** The collection loop and the browser session *)

Section CollectFacts.

Variable E : env.
Variable mask_generator : oracle.
Variables (bboxes_dir csv_dir : string).
Variable chrome : string -> browser.
Variables (prompt downloaded_dir : string) (batch_size : nat).

Lemma gen_next_session (fuel : nat) :
  forall (g : gen) (w : world) (o : outcome) (g1 : gen) (w1 : world),
    held g ->
    gen_next E chrome prompt downloaded_dir batch_size fuel g w
    = Some (o, g1, w1) ->
    match o with
    | Continue => False
    | Yield _ =>
        is_Some (driver g1) /\ driver_quit g1 = false
        /\ (at_pc g1 = YieldedInLoop \/ at_pc g1 = YieldedLast)
    | StopIteration => driver_quit g1 = true
    | Raise => at_pc g1 = Finished /\ driver_quit g1 = false
    end.
Proof.
  induction fuel as [|fuel IH]; intros g w o g1 w1 Hheld Hnext;
    [discriminate|].
  cbn [gen_next] in Hnext.
  destruct Hheld as [-> | (Hd & Hq & Hlive)].
  - unfold step, yandex_images_batch_generator in Hnext. cbn [at_pc] in Hnext.
    destruct (find_elements _) as [imgs|].
    + apply IH in Hnext; [exact Hnext|]. right.
      unfold live. simpl. eauto.
    + injection Hnext as <- <- <-. split; reflexivity.
  - pose proof (step_driver E chrome prompt downloaded_dir batch_size g w
                  Hd Hq Hlive) as Hdrv.
    pose proof (step_effect E chrome prompt downloaded_dir batch_size g w)
      as Heff.
    destruct (step E chrome prompt downloaded_dir batch_size g w)
      as [[o' g'] w'].
    destruct o' as [| b | |].
    + apply IH in Hnext; [exact Hnext|]. right. exact Hdrv.
    + injection Hnext as <- <- <-. destruct Hdrv as (Hd1 & Hq1 & _).
      destruct Heff as (new1 & _ & _ & _ & _ & _ & _ & Hpc).
      { destruct Hlive as [-> | [-> | ->]]; discriminate. }
      repeat split; [exact Hd1 | exact Hq1 |].
      destruct Hpc as [[? _] | [? _]]; auto.
    + injection Hnext as <- <- <-. apply Hdrv.
    + injection Hnext as <- <- <-. destruct Hdrv as (? & _ & ?). done.
Qed.

Lemma collect_session (rounds : nat) :
  forall (fuel num_images : nat) (g : gen) (w : world) (already : nat)
         (reason : stop_reason) (g' : gen) (w' : world) (already' : nat),
    held g ->
    collect E mask_generator bboxes_dir csv_dir chrome prompt downloaded_dir
      batch_size rounds fuel num_images g w already
    = Some (reason, g', w', already') ->
    match reason with
    | Exhausted => driver_quit g' = true
    | TargetReached =>
        is_Some (driver g') /\ driver_quit g' = false
        /\ (at_pc g' = YieldedInLoop \/ at_pc g' = YieldedLast)
    | Crashed =>
        driver_quit g' = false
        /\ (at_pc g' = YieldedInLoop \/ at_pc g' = YieldedLast
            \/ at_pc g' = Finished)
    end.
Proof.
  induction rounds as [|rounds IH];
    intros fuel num_images g w already reason g' w' already' Hheld Hrun;
    [discriminate|].
  cbn [collect] in Hrun.
  destruct (gen_next E chrome prompt downloaded_dir batch_size fuel g w)
    as [[[o g1] w1]|] eqn:Hnext; [|discriminate].
  pose proof (gen_next_session fuel g w o g1 w1 Hheld Hnext) as Hs.
  destruct o as [| batch | |]; [contradiction | | |].
  - destruct Hs as (Hd & Hq & Hpc).
    destruct (process_batch E mask_generator bboxes_dir csv_dir batch 0 w1)
      as [[counter|] w2].
    + destruct (Nat.leb num_images (already + length batch)).
      * injection Hrun as <- <- <- <-. done.
      * apply IH in Hrun; [exact Hrun|]. right.
        unfold live. intuition.
    + injection Hrun as <- <- <- <-. split; [exact Hq | tauto].
  - injection Hrun as <- <- <- <-. exact Hs.
  - injection Hrun as <- <- <- <-. destruct Hs as [? ?]. auto.
Qed.

End CollectFacts.

(** The collection loop of the notebook and the browser session.  When the
    loop for a prompt ends because the generator is exhausted,
    [driver.quit()] has run.  When it ends because the target number of
    images is reached, the generator is left suspended at its [yield] with
    the session acquired and not quit.  When an exception escapes,
    [driver.quit()] has not run either: the generator is suspended at its
    [yield] (the exception came from [image_pipeline]) or has ended (it
    came from [next]). *)
Theorem collect_leaves_session_open (E : env) (mask_generator : oracle)
    (bboxes_dir csv_dir : string) (chrome : string -> browser)
    (prompt downloaded_dir : string) (batch_size rounds fuel num_images : nat)
    (w : world) (already : nat) (reason : stop_reason) (g' : gen)
    (w' : world) (already' : nat) :
  collect E mask_generator bboxes_dir csv_dir chrome prompt downloaded_dir
    batch_size rounds fuel num_images yandex_images_batch_generator w already
  = Some (reason, g', w', already') ->
  match reason with
  | Exhausted => driver_quit g' = true
  | TargetReached =>
      is_Some (driver g') /\ driver_quit g' = false
      /\ (at_pc g' = YieldedInLoop \/ at_pc g' = YieldedLast)
  | Crashed =>
      driver_quit g' = false
      /\ (at_pc g' = YieldedInLoop \/ at_pc g' = YieldedLast
          \/ at_pc g' = Finished)
  end.
Proof. apply collect_session. by left. Qed.

Lemma collect_leaves_session_open_witness :
  exists g' : gen,
    is_Some (driver g') /\ driver_quit g' = false
    /\ (at_pc g' = YieldedInLoop \/ at_pc g' = YieldedLast).
Proof.
  eexists.
  eapply (collect_leaves_session_open (sample_env true) sample_oracle
            "bboxes" "csv"
            (sample_chrome [Element (Some "http://a");
                            Element (Some "http://b");
                            Element (Some "http://c")])
            "beer" "out" 1 5 9 2 empty_world 0 TargetReached).
  vm_compute. reflexivity.
Defined.

Lemma collect_target_met (E : env) (mask_generator : oracle)
    (bboxes_dir csv_dir : string) (chrome : string -> browser)
    (prompt downloaded_dir : string) (batch_size : nat) (rounds : nat) :
  forall (fuel num_images : nat) (g : gen) (w : world) (already : nat)
         (g' : gen) (w' : world) (already' : nat),
    collect E mask_generator bboxes_dir csv_dir chrome prompt downloaded_dir
      batch_size rounds fuel num_images g w already
    = Some (TargetReached, g', w', already') ->
    (num_images <= already')%nat.
Proof.
  induction rounds as [|rounds IH];
    intros fuel num_images g w already g' w' already' Hrun; [discriminate|].
  cbn [collect] in Hrun.
  destruct (gen_next E chrome prompt downloaded_dir batch_size fuel g w)
    as [[[[| batch | |] g1] w1]|]; try discriminate.
  destruct (process_batch E mask_generator bboxes_dir csv_dir batch 0 w1)
    as [[counter|] w2]; [|discriminate].
  destruct (Nat.leb_spec num_images (already + length batch)).
  - injection Hrun as <- <- <-. done.
  - by apply IH in Hrun.
Qed.

Lemma collect_one_round (E : env) (mask_generator : oracle)
    (bboxes_dir csv_dir : string) (chrome : string -> browser)
    (prompt downloaded_dir : string) (batch_size rounds fuel num_images : nat)
    (g : gen) (w : world) (already : nat) :
  (num_images <= already)%nat ->
  collect E mask_generator bboxes_dir csv_dir chrome prompt downloaded_dir
    batch_size (S rounds) fuel num_images g w already
  = collect E mask_generator bboxes_dir csv_dir chrome prompt downloaded_dir
      batch_size 1 fuel num_images g w already.
Proof.
  intros Hmet. cbn [collect].
  destruct (gen_next E chrome prompt downloaded_dir batch_size fuel g w)
    as [[[[| batch | |] g1] w1]|]; try reflexivity.
  destruct (process_batch E mask_generator bboxes_dir csv_dir batch 0 w1)
    as [[counter|] w2]; [|reflexivity].
  destruct (Nat.leb_spec num_images (already + length batch));
    [reflexivity | lia].
Qed.

(** [already_downloaded] is never reset between prompts: after the loop
    of a prompt ended on its target, the loop of a next prompt whose target
    is no larger makes a single call of [next] and ends after that one
    batch, however many images its generator could give. *)
Theorem collect_single_batch (E : env) (mask_generator : oracle)
    (bboxes_dir csv_dir : string) (chrome : string -> browser)
    (downloaded_dir : string) (batch_size : nat)
    (prompt1 prompt2 : string) (target1 target2 : nat)
    (rounds1 rounds2 fuel1 fuel2 : nat) (g1 g2 : gen) (w : world)
    (already : nat) (g1' : gen) (w' : world) (already' : nat) :
  collect E mask_generator bboxes_dir csv_dir chrome prompt1 downloaded_dir
    batch_size rounds1 fuel1 target1 g1 w already
  = Some (TargetReached, g1', w', already') ->
  (target2 <= target1)%nat ->
  collect E mask_generator bboxes_dir csv_dir chrome prompt2 downloaded_dir
    batch_size (S rounds2) fuel2 target2 g2 w' already'
  = collect E mask_generator bboxes_dir csv_dir chrome prompt2 downloaded_dir
      batch_size 1 fuel2 target2 g2 w' already'.
Proof.
  intros Hfirst Hle. apply collect_one_round.
  apply collect_target_met in Hfirst. lia.
Qed.

Lemma collect_single_batch_witness :
  exists (w' : world) (already' : nat),
    collect (sample_env true) sample_oracle "bboxes" "csv"
      (sample_chrome [Element (Some "http://a"); Element (Some "http://b");
                      Element (Some "http://c")])
      "wine" "out" 1 7 9 1 yandex_images_batch_generator w' already'
    = collect (sample_env true) sample_oracle "bboxes" "csv"
        (sample_chrome [Element (Some "http://a"); Element (Some "http://b");
                        Element (Some "http://c")])
        "wine" "out" 1 1 9 1 yandex_images_batch_generator w' already'.
Proof.
  eexists _, _.
  eapply (collect_single_batch (sample_env true) sample_oracle "bboxes" "csv"
            _ "out" 1 "beer" "wine" 2 1 5 6 9 9
            yandex_images_batch_generator yandex_images_batch_generator
            empty_world 0).
  - vm_compute. reflexivity.
  - lia.
Defined.

(** ** The word list cut in quarters *)

Lemma py_range_slices (a : list string) (q : nat) :
  (0 < q)%nat ->
  forall (fuel i : nat),
    (length a - i <= fuel)%nat ->
    map (fun j => take q (drop j a)) (py_range fuel i (length a) q)
    = chunks_upto fuel q (drop i a).
Proof.
  intros Hq. induction fuel as [|fuel IH]; intros i Hfuel.
  - simpl. reflexivity.
  - cbn [py_range chunks_upto].
    destruct (Nat.ltb_spec i (length a)) as [Hlt | Hge].
    + destruct (drop i a) as [|x l] eqn:Hd.
      { apply (f_equal length) in Hd. rewrite length_drop in Hd.
        simpl in Hd. lia. }
      rewrite <- Hd. cbn [map]. f_equal.
      rewrite IH by lia. by rewrite drop_drop.
    + rewrite drop_ge by lia. reflexivity.
Qed.

Lemma quarters_chunks (a : list string) :
  (4 <= length a)%nat -> quarters a = Some (chunks (length a / 4) a).
Proof.
  intros Hlen. unfold quarters.
  assert (Hq : (0 < length a / 4)%nat)
    by (apply Nat.div_str_pos; lia).
  destruct (Nat.eqb_spec (length a / 4) 0) as [Hz | _]; [lia|].
  rewrite (py_range_slices a _ Hq) by lia. reflexivity.
Qed.

(** The cut of a list in pieces of a quarter of its length: it raises on
    fewer than 4 items; otherwise the pieces put together give the list
    back, and there is a fifth piece, so that [b[4]] does not raise
    [IndexError], exactly when the length is no multiple of 4. *)
Theorem quarters_pieces (a : list string) :
  (quarters a = None <-> (length a < 4)%nat)
  /\ forall b : list (list string),
       quarters a = Some b ->
       concat b = a
       /\ (b !! 4%nat = None <-> (length a mod 4 = 0)%nat).
Proof.
  split.
  - unfold quarters. destruct (Nat.eqb_spec (length a / 4) 0) as [Hz | Hnz].
    + split; [intros _ | done].
      apply Nat.div_small_iff in Hz; lia.
    + split; [done|]. intros Hlt. rewrite Nat.div_small in Hnz; lia.
  - intros b Hb.
    assert (Hlen : (4 <= length a)%nat).
    { destruct (Nat.le_gt_cases 4 (length a)) as [|Hlt]; [done|].
      unfold quarters in Hb. rewrite Nat.div_small in Hb by lia.
      discriminate. }
    rewrite quarters_chunks in Hb by exact Hlen. injection Hb as <-.
    assert (Hq : (0 < length a / 4)%nat) by (apply Nat.div_str_pos; lia).
    split; [by apply chunks_concat|].
    rewrite lookup_ge_None, (chunks_length _ Hq). unfold ceil_div.
    pose proof (Nat.div_mod_eq (length a) 4) as Hdm.
    pose proof (Nat.mod_upper_bound (length a) 4 ltac:(lia)) as Hm.
    set (q := (length a / 4)%nat) in *. set (r := (length a mod 4)%nat) in *.
    split.
    + intros Hle.
      destruct (Nat.eq_dec r 0%nat) as [|Hr]; [done|]. exfalso.
      assert (5 <= (length a + q - 1) / q)%nat; [|lia].
      apply Nat.div_le_lower_bound; lia.
    + intros Hr.
      assert ((length a + q - 1) / q < 5)%nat; [|lia].
      apply Nat.Div0.div_lt_upper_bound. lia.
Qed.

Lemma quarters_pieces_witness :
  concat [["a"; "b"]; ["c"; "d"]; ["e"; "f"]; ["g"; "h"]]
  = ["a"; "b"; "c"; "d"; "e"; "f"; "g"; "h"]
  /\ ([["a"; "b"]; ["c"; "d"]; ["e"; "f"]; ["g"; "h"]] !! 4%nat = None
      <-> (length ["a"; "b"; "c"; "d"; "e"; "f"; "g"; "h"] mod 4 = 0)%nat).
Proof.
  apply (proj2 (quarters_pieces ["a"; "b"; "c"; "d"; "e"; "f"; "g"; "h"])).
  reflexivity.
Defined.
